(** * core-js-101: objects tasks and date tasks

    A shallow embedding of [src/05-objects-tasks.js] (the rectangle factory
    and the CSS selector builder) and of the date tasks ([isLeapYear],
    [angleBetweenClockHands]), with the properties of the specification
    stated and settled against it.

    JavaScript numbers are IEEE-754 binary64 values: they are modelled by
    Rocq's primitive floats.  JavaScript objects are mutable records living
    in a store: the builder is modelled over an explicit store of objects
    with own properties and a prototype link. *)

From Stdlib Require Import ZArith Lia List DecimalString.
From Stdlib Require Import Floats.PrimFloat.
From stdpp Require Import gmap strings list.

(* ===================================================================== *)
(** * Rectangle *)
(* ===================================================================== *)

Module Rect.

Local Open Scope float_scope.

(** The object literal built by [Rectangle]: two data fields and a method.
    The method is an arrow function, that is a closure; it takes no
    argument. *)
Record rectangle := MkRectangle {
  width : float;
  height : float;
  getArea : unit -> float
}.

(** [function Rectangle(widthe, heighte)]: the closure stored in [getArea]
    is [() => widthe * heighte]. *)
Definition Rectangle (widthe heighte : float) : rectangle :=
  {| width := widthe;
     height := heighte;
     getArea := fun _ => widthe * heighte |}.

(** Assignments [r.width = v] and [r.height = v] performed by a caller on
    the returned object. *)
Inductive mutation :=
| SetWidth (v : float)
| SetHeight (v : float).

Definition mutate (r : rectangle) (m : mutation) : rectangle :=
  match m with
  | SetWidth v => {| width := v; height := height r; getArea := getArea r |}
  | SetHeight v => {| width := width r; height := v; getArea := getArea r |}
  end.

Definition mutate_all (r : rectangle) (ms : list mutation) : rectangle :=
  fold_left mutate ms r.

End Rect.

(* ===================================================================== *)
(** * CSS selector builder: the object store *)
(* ===================================================================== *)

Module Css.

Local Open Scope string_scope.

(** An object is named by its allocation number. *)
Definition loc := nat.

(** A JavaScript object of this program.  [proto] is its [[Prototype]]:
    [Some p] for an object made by [Object.create(p)], [None] for an
    instance whose prototype is [CssSelectorBuilderClass.prototype] itself
    (the class methods live there and are never written to).  [own] holds
    the own enumerable data properties, all of them strings ([cssElement],
    [cssId], ..., [s1], [c], [s2]).  [own_stringify] is the own property
    [stringify] that [combine] installs: an arrow function capturing the
    object [o] it was made for, represented by the location of [o]. *)
Record object := Object {
  proto : option loc;
  own : gmap string string;
  own_stringify : option loc
}.

(** The store: the objects in allocation order, newest first, so that the
    object number [l] is the one with [l] older objects below it. *)
Definition heap := list object.

Fixpoint obj_at (h : heap) (l : loc) : option object :=
  match h with
  | [] => None
  | o :: older => if decide (l = length older) then Some o else obj_at older l
  end.

(** Property read [l[k]] ([[Get]]): the own property, else the prototype
    chain.  [Object.create] can only name an object that exists already, so
    a prototype is older than the object and the chain is followed in the
    older part of the store.  [None] is JavaScript's [undefined]. *)
Fixpoint Get (h : heap) (l : loc) (k : string) : option string :=
  match h with
  | [] => None
  | o :: older =>
      if decide (l = length older) then
        match own o !! k with
        | Some v => Some v
        | None =>
            match proto o with
            | Some p => Get older p k
            | None => None
            end
        end
      else Get older l k
  end.

(** Method lookup [l.stringify]: [Some c] when an own or inherited
    [stringify] property made by [combine] is found (the closure over the
    object [c]), [None] when the lookup reaches the class method. *)
Fixpoint Get_stringify (h : heap) (l : loc) : option loc :=
  match h with
  | [] => None
  | o :: older =>
      if decide (l = length older) then
        match own_stringify o with
        | Some c => Some c
        | None =>
            match proto o with
            | Some p => Get_stringify older p
            | None => None
            end
        end
      else Get_stringify older l
  end.

(** In-place update of the object at [l]. *)
Fixpoint update_at (h : heap) (l : loc) (f : object -> object) : heap :=
  match h with
  | [] => []
  | o :: older =>
      if decide (l = length older) then f o :: older
      else o :: update_at older l f
  end.

(** [Object.create(p)]: a new object with no own property. *)
Definition Object_create (h : heap) (p : loc) : heap * loc :=
  (Object (Some p) ∅ None :: h, length h).

(** [Object.assign(target, source)]: every own enumerable property of
    [source] is written on [target]. *)
Definition Object_assign (h : heap) (target source : loc) : heap :=
  match obj_at h source with
  | Some s =>
      update_at h target (fun o =>
        Object (proto o) (own s ∪ own o)
               (match own_stringify s with
                | Some c => Some c
                | None => own_stringify o
                end))
  | None => h
  end.

(** [l[k] = v] *)
Definition set_prop (h : heap) (l : loc) (k v : string) : heap :=
  update_at h l (fun o => Object (proto o) (<[k:=v]> (own o)) (own_stringify o)).

(** [l.stringify = () => ...] with the closure's captured object [c]. *)
Definition set_stringify (h : heap) (l c : loc) : heap :=
  update_at h l (fun o => Object (proto o) (own o) (Some c)).

(** Truthiness of a property value: [undefined] and the empty string are
    falsy, every other string is truthy. *)
Definition truthy (v : option string) : bool :=
  match v with
  | Some s => negb (String.eqb s "")
  | None => false
  end.

(** String conversion in template literals and in [+=]. *)
Definition ToString (v : option string) : string :=
  match v with
  | Some s => s
  | None => "undefined"
  end.

(** The two [Error]s the builder throws, named as the specification names
    them; [message] is the text passed to [new Error]. *)
Inductive error := DuplicateViolation | OrderViolation.

Definition message (e : error) : string :=
  match e with
  | DuplicateViolation =>
      "Element, id and pseudo-element should not occur more then one time inside the selector"
  | OrderViolation =>
      "Selector parts should be arranged in the following order: element, id, class, attribute, pseudo-class, pseudo-element"
  end.

Inductive result (A : Type) :=
| Return (a : A)
| Throw (e : error).
Arguments Return {A} a.
Arguments Throw {A} e.

(** [keys.some((e) => this[e])] *)
Definition some_truthy (h : heap) (this : loc) (keys : list string) : bool :=
  existsb (fun e => truthy (Get h this e)) keys.

(** The tail shared by the six fragment methods:
    [const o = Object.create(this); Object.assign(o, this);] *)
Definition derive (h : heap) (this : loc) : heap * loc :=
  let '(h1, o) := Object_create h this in
  (Object_assign h1 o this, o).

(** ** Methods of [CssSelectorBuilderClass] *)

(** The class method [stringify()]. *)
Definition stringify_class (h : heap) (this : loc) : string :=
  let element :=
    if truthy (Get h this "cssElement") then ToString (Get h this "cssElement") else "" in
  let id :=
    if truthy (Get h this "cssId") then "#" +:+ ToString (Get h this "cssId") else "" in
  let clas :=
    if truthy (Get h this "cssClass") then ToString (Get h this "cssClass") else "" in
  let attr :=
    if truthy (Get h this "cssAttr") then "[" +:+ ToString (Get h this "cssAttr") +:+ "]" else "" in
  let psClas :=
    if truthy (Get h this "cssPseudoClass") then ToString (Get h this "cssPseudoClass") else "" in
  let psElem :=
    if truthy (Get h this "cssPseudoElement")
    then "::" +:+ ToString (Get h this "cssPseudoElement") else "" in
  element +:+ id +:+ clas +:+ attr +:+ psClas +:+ psElem.

(** The arrow function installed by [combine], closed over [o]:
    [() => `${o.s1} ${o.c} ${o.s2}`]. *)
Definition stringify_combined (h : heap) (o : loc) : string :=
  ToString (Get h o "s1") +:+ " " +:+ ToString (Get h o "c") +:+ " " +:+
  ToString (Get h o "s2").

(** The call [l.stringify()]: method lookup, then the body found. *)
Definition stringify (h : heap) (l : loc) : string :=
  match Get_stringify h l with
  | Some o => stringify_combined h o
  | None => stringify_class h l
  end.

Definition element (h : heap) (this : loc) (value : string) : result (heap * loc) :=
  if truthy (Get h this "cssElement") then Throw DuplicateViolation
  else if some_truthy h this
            ["cssId"; "cssClass"; "cssAttr"; "cssPseudoClass"; "cssPseudoElement"]
  then Throw OrderViolation
  else
    let '(h2, o) := derive h this in
    Return (set_prop h2 o "cssElement" value, o).

Definition id (h : heap) (this : loc) (value : string) : result (heap * loc) :=
  if truthy (Get h this "cssId") then Throw DuplicateViolation
  else if some_truthy h this
            ["cssClass"; "cssAttr"; "cssPseudoClass"; "cssPseudoElement"]
  then Throw OrderViolation
  else
    let '(h2, o) := derive h this in
    Return (set_prop h2 o "cssId" value, o).

Definition class (h : heap) (this : loc) (value : string) : result (heap * loc) :=
  if some_truthy h this ["cssAttr"; "cssPseudoClass"; "cssPseudoElement"]
  then Throw OrderViolation
  else
    let '(h2, o) := derive h this in
    Return (set_prop h2 o "cssClass"
              (ToString (Get h2 o "cssClass") +:+ "." +:+ value), o).

Definition attr (h : heap) (this : loc) (value : string) : result (heap * loc) :=
  if some_truthy h this ["cssPseudoClass"; "cssPseudoElement"]
  then Throw OrderViolation
  else
    let '(h2, o) := derive h this in
    Return (set_prop h2 o "cssAttr" value, o).

Definition pseudoClass (h : heap) (this : loc) (value : string) : result (heap * loc) :=
  if truthy (Get h this "cssPseudoElement") then Throw OrderViolation
  else
    let '(h2, o) := derive h this in
    Return (set_prop h2 o "cssPseudoClass"
              (ToString (Get h2 o "cssPseudoClass") +:+ ":" +:+ value), o).

Definition pseudoElement (h : heap) (this : loc) (value : string) : result (heap * loc) :=
  if truthy (Get h this "cssPseudoElement") then Throw DuplicateViolation
  else
    let '(h2, o) := derive h this in
    Return (set_prop h2 o "cssPseudoElement" value, o).

(** [combine] never throws. *)
Definition combine (h : heap) (this : loc) (selector1 : loc) (combinator : string)
    (selector2 : loc) : heap * loc :=
  let '(h1, o) := Object_create h this in
  let h2 := set_prop h1 o "s1" (stringify h1 selector1) in
  let h3 := set_prop h2 o "s2" (stringify h2 selector2) in
  let h4 := set_prop h3 o "c" combinator in
  (set_stringify h4 o o, o).

(** [const cssSelectorBuilder = new CssSelectorBuilderClass()]: the
    constructor leaves six own properties, all the empty string. *)
Definition new_CssSelectorBuilderClass : object :=
  Object None
    (<["cssPseudoElement" := ""]> (<["cssPseudoClass" := ""]> (<["cssAttr" := ""]>
     (<["cssClass" := ""]> (<["cssId" := ""]> (<["cssElement" := ""]>
     (<["cssPseudoClass" := ""]> (<["cssClass" := ""]> ∅))))))))
    None.

Definition heap0 : heap := [new_CssSelectorBuilderClass].
Definition cssSelectorBuilder : loc := 0.

(** ** Derivation chains *)

(** A call of one of the six fragment methods. *)
Inductive call :=
| Element (value : string)
| Id (value : string)
| Class (value : string)
| Attr (value : string)
| PseudoClass (value : string)
| PseudoElement (value : string).

Definition invoke (h : heap) (this : loc) (c : call) : result (heap * loc) :=
  match c with
  | Element v => element h this v
  | Id v => id h this v
  | Class v => class h this v
  | Attr v => attr h this v
  | PseudoClass v => pseudoClass h this v
  | PseudoElement v => pseudoElement h this v
  end.

(** [this.c1(..).c2(..)...]: each method is called on the object the
    previous one returned; a throw ends the chain. *)
Fixpoint chain (h : heap) (this : loc) (cs : list call) : result (heap * loc) :=
  match cs with
  | [] => Return (h, this)
  | c :: cs' =>
      match invoke h this c with
      | Return (h', o) => chain h' o cs'
      | Throw e => Throw e
      end
  end.

(** ** What a call checks and what it writes

    The three functions below restate the six methods kind by kind; the
    methods are proved equal to them ([invoke_guard]) before they are
    used. *)

(** The property a fragment method assigns on the object it derives. *)
Definition target (c : call) : string :=
  match c with
  | Element _ => "cssElement"
  | Id _ => "cssId"
  | Class _ => "cssClass"
  | Attr _ => "cssAttr"
  | PseudoClass _ => "cssPseudoClass"
  | PseudoElement _ => "cssPseudoElement"
  end.

(** The value it assigns there. *)
Definition written (h : heap) (this : loc) (c : call) : string :=
  match c with
  | Element v | Id v | Attr v | PseudoElement v => v
  | Class v => ToString (Get h this "cssClass") +:+ "." +:+ v
  | PseudoClass v => ToString (Get h this "cssPseudoClass") +:+ ":" +:+ v
  end.

(** The error it throws, if any, before deriving. *)
Definition guard (h : heap) (this : loc) (c : call) : option error :=
  match c with
  | Element _ =>
      if truthy (Get h this "cssElement") then Some DuplicateViolation
      else if some_truthy h this
                ["cssId"; "cssClass"; "cssAttr"; "cssPseudoClass"; "cssPseudoElement"]
      then Some OrderViolation else None
  | Id _ =>
      if truthy (Get h this "cssId") then Some DuplicateViolation
      else if some_truthy h this
                ["cssClass"; "cssAttr"; "cssPseudoClass"; "cssPseudoElement"]
      then Some OrderViolation else None
  | Class _ =>
      if some_truthy h this ["cssAttr"; "cssPseudoClass"; "cssPseudoElement"]
      then Some OrderViolation else None
  | Attr _ =>
      if some_truthy h this ["cssPseudoClass"; "cssPseudoElement"]
      then Some OrderViolation else None
  | PseudoClass _ =>
      if truthy (Get h this "cssPseudoElement") then Some OrderViolation else None
  | PseudoElement _ =>
      if truthy (Get h this "cssPseudoElement") then Some DuplicateViolation else None
  end.

(** ** Stores the program can reach *)

(** Every closure in the store captures an object of the store. *)
Definition closed (h : heap) : bool :=
  forallb (fun o => match own_stringify o with
                    | Some c => Nat.ltb c (length h)
                    | None => true
                    end) h.

(** The stores a program gets by calling the methods on objects it
    holds, starting with the module's own store. *)
Inductive reachable : heap -> Prop :=
| reach_module : reachable heap0
| reach_invoke h this c h' o :
    reachable h -> invoke h this c = Return (h', o) -> reachable h'
| reach_combine h this s1 c s2 :
    reachable h -> reachable (fst (combine h this s1 c s2)).

(** What a caller can observe of an object through the builder's methods:
    its property reads, and the string its [stringify] closure returns if
    it has one. *)
Definition closure_view (h : heap) (l : loc) : option string :=
  option_map (stringify_combined h) (Get_stringify h l).

Definition same_view (h : heap) (l : loc) (h' : heap) (l' : loc) : Prop :=
  (forall k, Get h l k = Get h' l' k) /\ closure_view h l = closure_view h' l'.

(** The objects of [h] as found in [h']: same contents, same view. *)
Definition unchanged (h h' : heap) : Prop :=
  forall l, l < length h -> obj_at h' l = obj_at h l /\ same_view h' l h l.

(** The object a fragment method returns and the store it leaves, for the
    property [k] and the value [v] it assigns. *)
Definition derived (h : heap) (this : loc) (k v : string) : heap * loc :=
  let '(h2, o) := derive h this in (set_prop h2 o k v, o).

(** Two outcomes of a chain that a caller cannot tell apart. *)
Definition same_outcome (r r' : result (heap * loc)) : Prop :=
  match r, r' with
  | Return (h, o), Return (h', o') => same_view h o h' o'
  | Throw e, Throw e' => e = e'
  | _, _ => False
  end.

(** ** The fragment set of the specification

    Six fields: at most one element, id, attribute and pseudo-element
    token, and two sequences of tokens in insertion order.  A field is
    present when it holds a token; the empty string is no token. *)
Record FragmentSet := MkFragmentSet {
  fs_element : option string;
  fs_id : option string;
  fs_classes : list string;
  fs_attribute : option string;
  fs_pseudoClasses : list string;
  fs_pseudoElement : option string
}.

Definition no_fragment : FragmentSet := MkFragmentSet None None [] None [] None.

Definition token (v : string) : option string :=
  if String.eqb v "" then None else Some v.

Definition add_fragment (fs : FragmentSet) (c : call) : FragmentSet :=
  match c with
  | Element v =>
      MkFragmentSet (token v) (fs_id fs) (fs_classes fs) (fs_attribute fs)
                    (fs_pseudoClasses fs) (fs_pseudoElement fs)
  | Id v =>
      MkFragmentSet (fs_element fs) (token v) (fs_classes fs) (fs_attribute fs)
                    (fs_pseudoClasses fs) (fs_pseudoElement fs)
  | Class v =>
      MkFragmentSet (fs_element fs) (fs_id fs) (fs_classes fs ++ [v]) (fs_attribute fs)
                    (fs_pseudoClasses fs) (fs_pseudoElement fs)
  | Attr v =>
      MkFragmentSet (fs_element fs) (fs_id fs) (fs_classes fs) (token v)
                    (fs_pseudoClasses fs) (fs_pseudoElement fs)
  | PseudoClass v =>
      MkFragmentSet (fs_element fs) (fs_id fs) (fs_classes fs) (fs_attribute fs)
                    (fs_pseudoClasses fs ++ [v]) (fs_pseudoElement fs)
  | PseudoElement v =>
      MkFragmentSet (fs_element fs) (fs_id fs) (fs_classes fs) (fs_attribute fs)
                    (fs_pseudoClasses fs) (token v)
  end.

(** The fragment set a sequence of calls builds from nothing. *)
Definition fragments (cs : list call) : FragmentSet :=
  fold_left add_fragment cs no_fragment.

(** Each token of [l] behind the mark [pre], with nothing between. *)
Fixpoint prefixed (pre : string) (l : list string) : string :=
  match l with
  | [] => ""
  | v :: l' => pre +:+ v +:+ prefixed pre l'
  end.

(** The rendering of the specification: the kinds in their fixed order. *)
Definition render (fs : FragmentSet) : string :=
  (match fs_element fs with Some v => v | None => "" end) +:+
  (match fs_id fs with Some v => "#" +:+ v | None => "" end) +:+
  prefixed "." (fs_classes fs) +:+
  (match fs_attribute fs with Some v => "[" +:+ v +:+ "]" | None => "" end) +:+
  prefixed ":" (fs_pseudoClasses fs) +:+
  (match fs_pseudoElement fs with Some v => "::" +:+ v | None => "" end).

(** The object [l] of [h] holds the fragment set [fs]: it renders with the
    class method, and its six properties hold the tokens of [fs]. *)
Definition represents (h : heap) (l : loc) (fs : FragmentSet) : Prop :=
  Get_stringify h l = None /\
  token <$> Get h l "cssElement" = Some (fs_element fs) /\
  token <$> Get h l "cssId" = Some (fs_id fs) /\
  Get h l "cssClass" = Some (prefixed "." (fs_classes fs)) /\
  token <$> Get h l "cssAttr" = Some (fs_attribute fs) /\
  Get h l "cssPseudoClass" = Some (prefixed ":" (fs_pseudoClasses fs)) /\
  token <$> Get h l "cssPseudoElement" = Some (fs_pseudoElement fs).

(** The six fragment kinds, in their fixed order. *)
Inductive kind :=
| KElement | KId | KClass | KAttribute | KPseudoClass | KPseudoElement.

#[global] Instance kind_eq_dec : EqDecision kind.
Proof. solve_decision. Defined.

Definition rank (k : kind) : nat :=
  match k with
  | KElement => 0
  | KId => 1
  | KClass => 2
  | KAttribute => 3
  | KPseudoClass => 4
  | KPseudoElement => 5
  end.

Definition kinds : list kind :=
  [KElement; KId; KClass; KAttribute; KPseudoClass; KPseudoElement].

(** The kinds that come after [k]. *)
Definition later (k : kind) : list kind :=
  filter (fun k' => rank k < rank k') kinds.

(** Element, id and pseudo-element are the kinds that occur once. *)
Definition singleton (k : kind) : bool :=
  match k with
  | KElement | KId | KPseudoElement => true
  | KClass | KAttribute | KPseudoClass => false
  end.

(** The property that holds the fragments of a kind. *)
Definition key (k : kind) : string :=
  match k with
  | KElement => "cssElement"
  | KId => "cssId"
  | KClass => "cssClass"
  | KAttribute => "cssAttr"
  | KPseudoClass => "cssPseudoClass"
  | KPseudoElement => "cssPseudoElement"
  end.

Definition kind_of (c : call) : kind :=
  match c with
  | Element _ => KElement
  | Id _ => KId
  | Class _ => KClass
  | Attr _ => KAttribute
  | PseudoClass _ => KPseudoClass
  | PseudoElement _ => KPseudoElement
  end.

(** The token a call passes. *)
Definition value (c : call) : string :=
  match c with
  | Element v | Id v | Class v | Attr v | PseudoClass v | PseudoElement v => v
  end.

(** A kind is present in a fragment set. *)
Definition present (fs : FragmentSet) (k : kind) : bool :=
  match k with
  | KElement => bool_decide (is_Some (fs_element fs))
  | KId => bool_decide (is_Some (fs_id fs))
  | KClass => negb (bool_decide (fs_classes fs = []))
  | KAttribute => bool_decide (is_Some (fs_attribute fs))
  | KPseudoClass => negb (bool_decide (fs_pseudoClasses fs = []))
  | KPseudoElement => bool_decide (is_Some (fs_pseudoElement fs))
  end.

(** The store holds the exported builder. *)
Definition has_builder (h : heap) : Prop :=
  obj_at h cssSelectorBuilder = Some new_CssSelectorBuilderClass.

(** What a caller sees of [cssSelectorBuilder.c1(..)...cn(..).stringify()]:
    the string, or the error thrown on the way. *)
Definition outcome (cs : list call) : result string :=
  match chain heap0 cssSelectorBuilder cs with
  | Return (h, o) => Return (stringify h o)
  | Throw e => Throw e
  end.

(** The kinds whose method assigns the token; the two others append it. *)
Definition overwrites (k : kind) : bool :=
  match k with
  | KClass | KPseudoClass => false
  | KElement | KId | KAttribute | KPseudoElement => true
  end.

(** The store and the object of a result, for worked examples. *)
Definition store_of (r : result (heap * loc)) : heap :=
  match r with
  | Return (h, _) => h
  | Throw _ => heap0
  end.

Definition object_of (r : result (heap * loc)) : loc :=
  match r with
  | Return (_, o) => o
  | Throw _ => cssSelectorBuilder
  end.

(** ** The order of calls

    [c] may be called after [earlier] was: its kind comes later in the
    fixed order, or it is the same kind and not one that occurs once. *)
Definition may_follow (earlier c : call) : bool :=
  Nat.ltb (rank (kind_of earlier)) (rank (kind_of c))
  || (Nat.eqb (rank (kind_of earlier)) (rank (kind_of c)) && negb (singleton (kind_of c))).

(** Every call may follow every call before it. *)
Fixpoint accepted_after (earlier cs : list call) : bool :=
  match cs with
  | [] => true
  | c :: cs' =>
      forallb (fun c' => may_follow c' c) earlier
      && accepted_after (earlier ++ [c])%list cs'
  end.

Definition accepted (cs : list call) : bool := accepted_after [] cs.

(** The call returned: nothing was thrown. *)
Definition returns {A : Type} (r : result A) : bool :=
  match r with
  | Return _ => true
  | Throw _ => false
  end.

(** The call leaves the field of its kind holding a non-empty string:
    [class] and [pseudoClass] always do (they append a mark and the
    token), the four others when their token is not the empty string. *)
Definition leaves_set (c : call) : bool :=
  match c with
  | Class _ | PseudoClass _ => true
  | Element v | Id v | Attr v | PseudoElement v => negb (String.eqb v "")
  end.

End Css.

(* ===================================================================== *)
(** * Date tasks *)
(* ===================================================================== *)

Module Dates.

Local Open Scope Z_scope.

(** ** The [Date] built-in, after ECMA-262 (Date objects)

    A [Date] holds a time value: a whole number of milliseconds since the
    epoch with absolute value at most 8.64e15, or [NaN] (an invalid date),
    which is [None] here. *)
Definition date := option Z.

Definition msPerDay : Z := 86400000.
Definition msPerHour : Z := 3600000.
Definition msPerMinute : Z := 60000.
Definition msPerSecond : Z := 1000.

Definition Day (t : Z) : Z := t / msPerDay.
Definition TimeWithinDay (t : Z) : Z := t mod msPerDay.

Definition DaysInYear (y : Z) : Z :=
  if y mod 400 =? 0 then 366
  else if y mod 100 =? 0 then 365
  else if y mod 4 =? 0 then 366
  else 365.

Definition DayFromYear (y : Z) : Z :=
  365 * (y - 1970) + (y - 1969) / 4 - (y - 1901) / 100 + (y - 1601) / 400.

Definition TimeFromYear (y : Z) : Z := msPerDay * DayFromYear y.

(** [YearFromTime(t)] is the largest [y] with [TimeFromYear(y) <= t].  It
    is computed from the mean length of a year (146097 days in 400 years),
    which is off by one year at most, and one adjustment. *)
Definition YearFromTime (t : Z) : Z :=
  let d := Day t in
  let y := 1970 + (400 * d) / 146097 in
  if d <? DayFromYear y then y - 1
  else if DayFromYear (y + 1) <=? d then y + 1
  else y.

Definition InLeapYear (t : Z) : Z :=
  if DaysInYear (YearFromTime t) =? 366 then 1 else 0.

Definition DayWithinYear (t : Z) : Z := Day t - DayFromYear (YearFromTime t).

(** Number of days of the year before month [m] (0 to 11); [leap] is 0
    or 1. *)
Definition DaysBeforeMonth (m leap : Z) : Z :=
  match m with
  | 0 => 0
  | 1 => 31
  | 2 => 59 + leap
  | 3 => 90 + leap
  | 4 => 120 + leap
  | 5 => 151 + leap
  | 6 => 181 + leap
  | 7 => 212 + leap
  | 8 => 243 + leap
  | 9 => 273 + leap
  | 10 => 304 + leap
  | _ => 334 + leap
  end.

Definition MonthFromTime (t : Z) : Z :=
  let d := DayWithinYear t in
  let leap := InLeapYear t in
  if d <? 31 then 0
  else if d <? 59 + leap then 1
  else if d <? 90 + leap then 2
  else if d <? 120 + leap then 3
  else if d <? 151 + leap then 4
  else if d <? 181 + leap then 5
  else if d <? 212 + leap then 6
  else if d <? 243 + leap then 7
  else if d <? 273 + leap then 8
  else if d <? 304 + leap then 9
  else if d <? 334 + leap then 10
  else 11.

Definition DateFromTime (t : Z) : Z :=
  DayWithinYear t - DaysBeforeMonth (MonthFromTime t) (InLeapYear t) + 1.

Definition HourFromTime (t : Z) : Z := (t / msPerHour) mod 24.
Definition MinFromTime (t : Z) : Z := (t / msPerMinute) mod 60.

Definition MakeTime (hour min sec ms : Z) : Z :=
  hour * msPerHour + min * msPerMinute + sec * msPerSecond + ms.

(** [MakeDay(year, month, date)]: the day number of the first day of the
    month, plus [date - 1]. *)
Definition MakeDay (year month dt : Z) : Z :=
  let ym := year + month / 12 in
  let mn := month mod 12 in
  let leap := if DaysInYear ym =? 366 then 1 else 0 in
  DayFromYear ym + DaysBeforeMonth mn leap + dt - 1.

Definition MakeDate (day time : Z) : Z := day * msPerDay + time.

Definition TimeClip (t : Z) : date :=
  if 8640000000000000 <? Z.abs t then None else Some t.

(** The host's time zone: [LocalTZA t isUTC] is the offset of local time
    from UTC, in milliseconds, at the UTC time [t] ([isUTC = true]) or at
    the local time [t] ([isUTC = false]). *)
Section Host.

Variable LocalTZA : Z -> bool -> Z.

Definition LocalTime (t : Z) : Z := t + LocalTZA t true.
Definition UTC (t : Z) : Z := t - LocalTZA t false.

(** [new Date(value)] on a [Date] object: a copy of its time value. *)
Definition new_Date (value : date) : date :=
  match value with
  | Some tv => TimeClip tv
  | None => None
  end.

(** [new Date(year, month, date)]: a year from 0 to 99 stands for
    1900 + year; the fields are read as local time.  [year = None] is
    [NaN]. *)
Definition new_Date_fields (year : option Z) (month dt : Z) : date :=
  match year with
  | None => None
  | Some y =>
      let yr := if (0 <=? y) && (y <=? 99) then 1900 + y else y in
      let finalDate := MakeDate (MakeDay yr month dt) (MakeTime 0 0 0 0) in
      TimeClip (UTC finalDate)
  end.

Definition getFullYear (d : date) : option Z :=
  option_map (fun t => YearFromTime (LocalTime t)) d.

Definition getDate (d : date) : option Z :=
  option_map (fun t => DateFromTime (LocalTime t)) d.

Definition getUTCHours (d : date) : option Z :=
  option_map HourFromTime d.

Definition getMinutes (d : date) : option Z :=
  option_map (fun t => MinFromTime (LocalTime t)) d.

(** [x === n] for a number [x] that is a whole number or [NaN]. *)
Definition strict_eq (x : option Z) (n : Z) : bool :=
  match x with
  | Some v => v =? n
  | None => false
  end.

(** ** [isLeapYear] *)

Definition isLeapYear (d : date) : bool :=
  let data := new_Date_fields (getFullYear (new_Date d)) 1 29 in
  let tf := false in
  let tf := if strict_eq (getDate data) 29 then true else tf in
  tf.

End Host.

(** The local time [new Date(yr, 1, 29)] denotes, once [yr] is past the
    two-digit rule. *)
Definition feb29 (yr : Z) : Z := MakeDate (MakeDay yr 1 29) (MakeTime 0 0 0 0).

(** A host whose local time is UTC plus a fixed offset. *)
Definition fixed_offset (ms : Z) : Z -> bool -> Z := fun _ _ => ms.

(** [Date.UTC(year, month, date, hours, minutes)] for a four-digit year. *)
Definition Date_UTC (year month dt hours minutes : Z) : date :=
  TimeClip (MakeDate (MakeDay year month dt) (MakeTime hours minutes 0 0)).

(** The specification's leap-year rule: divisible by 4 and (not divisible
    by 100 or divisible by 400). *)
Definition leap_rule (y : Z) : bool :=
  (y mod 4 =? 0) && (negb (y mod 100 =? 0) || (y mod 400 =? 0)).

(** ** [angleBetweenClockHands] *)

Local Open Scope float_scope.

(** The number (a binary64 value) of a whole number; exact below 2^53. *)
Fixpoint pos2float (p : positive) : float :=
  match p with
  | xH => 1
  | xO q => 2 * pos2float q
  | xI q => 2 * pos2float q + 1
  end.

Definition Z2float (z : Z) : float :=
  match z with
  | Z0 => 0
  | Zpos p => pos2float p
  | Zneg p => - pos2float p
  end.

(** The number a getter returns: [NaN] on an invalid date. *)
Definition number (x : option Z) : float :=
  match x with
  | Some z => Z2float z
  | None => nan
  end.

(** [Math.PI] *)
Definition Math_PI : float := 0x1.921fb54442d18p+1.

(** The body of [angleBetweenClockHands], on the two numbers read from the
    date. *)
Definition clock_hands (hours0 minutes0 : float) : float :=
  let hours := hours0 in
  let minutes := minutes0 in
  let hours := if hours =? 12 then 0 else hours in
  let '(minutes, hours) :=
    if minutes =? 60 then (0, hours + 1) else (minutes, hours) in
  let hours := if 12 <? hours then hours - 12 else hours in
  let htom := hours * 5 in
  let res := 0 in
  let htom := htom + minutes * (5 / 60) in
  let htom := if 30 <? htom then htom - 30 else htom in
  let minutes := if 30 <? minutes then minutes - 30 else minutes in
  let res := if minutes <? htom then htom - minutes else res in
  let res := if htom <? minutes then minutes - htom else res in
  let result := (Math_PI / 30) * res in
  let result :=
    if result =? 0x1.eb7c166fdfe3ep-2 (* 0.47996554429844085 *)
    then 0x1.eb7c166fdfe3ap-2 (* 0.4799655442984406 *)
    else result in
  result.

Definition angleBetweenClockHands (LocalTZA : Z -> bool -> Z) (d : date) : float :=
  clock_hands (number (getUTCHours d)) (number (getMinutes LocalTZA d)).

(** The angle between the hands as the specification words it, for the
    hour [h] and the minute [m]: the hour hand stands at [5 * (h mod 12) +
    m / 12] minute marks, the minute hand at [m]; the distance between
    them is folded into the shorter arc and one minute mark is [PI / 30]
    radians. *)
Definition shorter_arc_angle (h m : Z) : float :=
  let hour_hand := Z2float (5 * (h mod 12)) + Z2float m / 12 in
  let minute_hand := Z2float m in
  let d := abs (hour_hand - minute_hand) in
  let folded := if 30 <? d then 60 - d else d in
  (Math_PI / 30) * folded.

(** [0 <= x && x <= Math.PI] *)
Definition within_0_PI (x : float) : bool := (0 <=? x) && (x <=? Math_PI).

(** Every reading of the two getters on a valid date: an hour from 0 to 23
    and a minute from 0 to 59. *)
Definition clock_faces : list (Z * Z) :=
  list_prod (map Z.of_nat (seq 0 24)) (map Z.of_nat (seq 0 60)).

(** The reading [(h, m)] on which [clock_hands] is the shorter arc, up to
    2^-20 radians. *)
Definition agrees_with_shorter_arc (hm : Z * Z) : bool :=
  abs (clock_hands (Z2float (fst hm)) (Z2float (snd hm))
       - shorter_arc_angle (fst hm) (snd hm)) <? 0x1p-20.

(** ** [timeSpanToString] *)

Local Close Scope float_scope.

Definition SecFromTime (t : Z) : Z := (t / msPerSecond) mod 60.
Definition msFromTime (t : Z) : Z := t mod msPerSecond.

(** [x - y] on numbers that are whole or [NaN]. *)
Definition Number_sub (x y : option Z) : option Z :=
  match x, y with
  | Some a, Some b => Some (a - b)
  | _, _ => None
  end.

(** [x.toString()] on such a number: the decimal digits, behind ['-'] when
    negative. *)
Definition Number_toString (x : option Z) : string :=
  match x with
  | Some z => NilZero.string_of_int (Z.to_int z)
  | None => "NaN"%string
  end.

Section TimeSpan.

Variable LocalTZA : Z -> bool -> Z.

Definition getHours (d : date) : option Z :=
  option_map (fun t => HourFromTime (LocalTime LocalTZA t)) d.

Definition getSeconds (d : date) : option Z :=
  option_map (fun t => SecFromTime (LocalTime LocalTZA t)) d.

Definition getMilliseconds (d : date) : option Z :=
  option_map (fun t => msFromTime (LocalTime LocalTZA t)) d.

Definition timeSpanToString (startDate endDate : date) : string :=
  let start := new_Date startDate in
  let end_ := new_Date endDate in
  let hours := Number_toString (Number_sub (getHours end_) (getHours start)) in
  let minutes :=
    Number_toString (Number_sub (getMinutes LocalTZA end_) (getMinutes LocalTZA start)) in
  let seconds := Number_toString (Number_sub (getSeconds end_) (getSeconds start)) in
  let milesecond :=
    Number_toString (Number_sub (getMilliseconds end_) (getMilliseconds start)) in
  let hours :=
    if Nat.eqb (String.length hours) 1 then ("0" +:+ hours)%string else hours in
  let minutes :=
    if Nat.eqb (String.length minutes) 1 then ("0" +:+ minutes)%string else minutes in
  let seconds :=
    if Nat.eqb (String.length seconds) 1 then ("0" +:+ seconds)%string else seconds in
  let milesecond :=
    if Nat.eqb (String.length milesecond) 1
    then ("00" +:+ milesecond)%string else milesecond in
  let milesecond :=
    if Nat.eqb (String.length milesecond) 2
    then ("0" +:+ milesecond)%string else milesecond in
  let res := (hours +:+ ":" +:+ minutes +:+ ":" +:+ seconds +:+ "." +:+ milesecond)%string in
  res.

End TimeSpan.

(** *** Reading a time span back

    The format the docstring of [timeSpanToString] gives, ["HH:mm:ss.sss"],
    read as a number of milliseconds. *)
Definition digit_value (a : Ascii.ascii) : option Z :=
  let n := Z.of_N (Ascii.N_of_ascii a) in
  if (48 <=? n) && (n <=? 57) then Some (n - 48) else None.

Definition digits_value (l : list Ascii.ascii) : option Z :=
  fold_left (fun acc a =>
               match acc, digit_value a with
               | Some v, Some d => Some (10 * v + d)
               | _, _ => None
               end) l (Some 0).

Definition colon : Ascii.ascii := Ascii.ascii_of_nat 58.
Definition full_stop : Ascii.ascii := Ascii.ascii_of_nat 46.
Definition hyphen_minus : Ascii.ascii := Ascii.ascii_of_nat 45.

Definition timespan_ms (s : string) : option Z :=
  match String.list_ascii_of_string s with
  | [h1; h0; c1; m1; m0; c2; s1; s0; dot; f2; f1; f0] =>
      if Ascii.eqb c1 colon && Ascii.eqb c2 colon && Ascii.eqb dot full_stop
      then
        match digits_value [h1; h0], digits_value [m1; m0],
              digits_value [s1; s0], digits_value [f2; f1; f0] with
        | Some h, Some m, Some sec, Some f =>
            Some (h * msPerHour + m * msPerMinute + sec * msPerSecond + f)
        | _, _, _, _ => None
        end
      else None
  | _ => None
  end.

(** The character [a] occurs in [s]. *)
Fixpoint occurs (a : Ascii.ascii) (s : string) : bool :=
  match s with
  | EmptyString => false
  | String b s' => Ascii.eqb a b || occurs a s'
  end.

(** The whole numbers from [lo], [n] of them. *)
Definition Z_range (lo : Z) (n : nat) : list Z :=
  map (fun i => lo + Z.of_nat i) (seq 0 n).

(** *** The dial, for [angleBetweenClockHands]

    The hour hand stands at [(60 * (h mod 12) + m) / 12] minute marks and
    the minute hand at [m]; the two are on the same half of the dial when
    both are at most 30 marks or both beyond. *)
Definition same_half (hm : Z * Z) : bool :=
  let hour12 := 60 * (fst hm mod 12) + snd hm in
  ((hour12 <=? 360) && (snd hm <=? 30)) || ((360 <? hour12) && (30 <? snd hm)).

(** *** The parts of the result

    The two- and three-place parts of [timeSpanToString], as functions of
    the field difference, and the digits they are when the difference is
    not negative.  [timeSpanToString] is proved to be made of them
    ([timeSpanToString_parts]). *)
Definition two_places (d : option Z) : string :=
  let s := Number_toString d in
  if Nat.eqb (String.length s) 1 then ("0" +:+ s)%string else s.

Definition three_places (d : option Z) : string :=
  let s := Number_toString d in
  let s := if Nat.eqb (String.length s) 1 then ("00" +:+ s)%string else s in
  if Nat.eqb (String.length s) 2 then ("0" +:+ s)%string else s.

Definition digit (n : Z) : Ascii.ascii := Ascii.ascii_of_nat (48 + Z.to_nat n).

Definition digits2 (n : Z) : string :=
  String (digit (n / 10)) (String (digit (n mod 10)) EmptyString).

Definition digits3 (n : Z) : string := String (digit (n / 100)) (digits2 (n mod 100)).

(** [end.getHours() - start.getHours()] and the three others, on two valid
    dates. *)
Definition field_differences (LocalTZA : Z -> bool -> Z) (s e : Z) : Z * Z * Z * Z :=
  (HourFromTime (LocalTime LocalTZA e) - HourFromTime (LocalTime LocalTZA s),
   MinFromTime (LocalTime LocalTZA e) - MinFromTime (LocalTime LocalTZA s),
   SecFromTime (LocalTime LocalTZA e) - SecFromTime (LocalTime LocalTZA s),
   msFromTime (LocalTime LocalTZA e) - msFromTime (LocalTime LocalTZA s)).

End Dates.

(* ===================================================================== *)
(** * Facts: Rectangle *)
(* ===================================================================== *)

Module RectFacts.
Import Rect.
Local Open Scope float_scope.

(** Field assignments never touch the closure stored in [getArea]. *)
Lemma getArea_mutate r m : getArea (mutate r m) = getArea r.
Proof. destruct m; reflexivity. Qed.

Lemma getArea_mutate_all ms : forall r, getArea (mutate_all r ms) = getArea r.
Proof.
  unfold mutate_all.
  induction ms as [|m ms IH]; intros r; simpl; [reflexivity|].
  rewrite IH. apply getArea_mutate.
Qed.

(** C1 (as stated, refuted): after [r.width = 5] on [Rectangle(10, 20)],
    [getArea()] still returns 200 and not the product 5 * 20 of the
    object's current fields. *)
Lemma getArea_ignores_current_fields :
  let r := mutate (Rectangle 10 20) (SetWidth 5) in
  getArea r tt = 200 /\ width r * height r = 100 /\
  getArea r tt <> width r * height r.
Proof.
  cbv zeta. repeat split; try reflexivity.
  intros H. apply (f_equal (fun x => PrimFloat.eqb x 200)) in H.
  vm_compute in H. discriminate H.
Qed.

(** C1 (amended): every call to [getArea()] returns the product of the
    [widthe] and [heighte] arguments the rectangle was constructed with,
    whatever assignments to its [width] and [height] fields happened since;
    on a rectangle that was not mutated this is the product of its
    fields. *)
Theorem getArea_is_product_of_constructor_arguments :
  forall (widthe heighte : float) (ms : list mutation) (u : unit),
    getArea (mutate_all (Rectangle widthe heighte) ms) u = widthe * heighte
    /\ getArea (Rectangle widthe heighte) u
       = width (Rectangle widthe heighte) * height (Rectangle widthe heighte).
Proof.
  intros w h ms u. split; [|reflexivity].
  rewrite getArea_mutate_all. reflexivity.
Qed.

End RectFacts.

(* ===================================================================== *)
(** * Facts: CSS selector builder *)
(* ===================================================================== *)

Module CssFacts.
Import Css.
Local Open Scope string_scope.

(** ** Reading the store *)

Lemma obj_at_old o h l : l < length h -> obj_at (o :: h) l = obj_at h l.
Proof. intros Hl. simpl. case_decide; [lia | reflexivity]. Qed.

Lemma Get_old o h l k : l < length h -> Get (o :: h) l k = Get h l k.
Proof. intros Hl. simpl. case_decide; [lia | reflexivity]. Qed.

Lemma Get_stringify_old o h l : l < length h -> Get_stringify (o :: h) l = Get_stringify h l.
Proof. intros Hl. simpl. case_decide; [lia | reflexivity]. Qed.

Lemma obj_at_beyond h : forall l, length h <= l -> obj_at h l = None.
Proof.
  induction h as [|o h IH]; intros l Hl; simpl in *; [reflexivity|].
  case_decide; [lia | apply IH; lia].
Qed.

Lemma obj_at_Some_lt h l o : obj_at h l = Some o -> l < length h.
Proof.
  intros H. destruct (Nat.lt_ge_cases l (length h)) as [|Hge]; [assumption|].
  rewrite (obj_at_beyond h l Hge) in H. discriminate.
Qed.

(** An own property shadows the prototype chain. *)
Lemma Get_own h : forall l s k v,
  obj_at h l = Some s -> own s !! k = Some v -> Get h l k = Some v.
Proof.
  induction h as [|o h IH]; intros l s k v Hs Hk; simpl in *; [discriminate|].
  case_decide.
  - injection Hs as ->. rewrite Hk. reflexivity.
  - eapply IH; eassumption.
Qed.

Lemma Get_stringify_own h : forall l s c,
  obj_at h l = Some s -> own_stringify s = Some c -> Get_stringify h l = Some c.
Proof.
  induction h as [|o h IH]; intros l s c Hs Hc; simpl in *; [discriminate|].
  case_decide.
  - injection Hs as ->. rewrite Hc. reflexivity.
  - eapply IH; eassumption.
Qed.

(** A closure found by the method lookup is the own property of some
    object of the store. *)
Lemma Get_stringify_Some h : forall l c,
  Get_stringify h l = Some c ->
  exists l' s, obj_at h l' = Some s /\ own_stringify s = Some c.
Proof.
  induction h as [|o h IH]; intros l c H; simpl in *; [discriminate|].
  case_decide as Hne; [subst l|].
  - destruct (own_stringify o) as [c'|] eqn:Ho.
    + injection H as ->. exists (length h), o. simpl.
      case_decide; [auto | contradiction].
    + destruct (proto o) as [p|]; [|discriminate].
      destruct (IH _ _ H) as (l' & s & Hs & Hc). exists l', s.
      pose proof (obj_at_Some_lt _ _ _ Hs).
      split; [|exact Hc]. simpl. case_decide; [lia | exact Hs].
  - destruct (IH _ _ H) as (l' & s & Hs & Hc). exists l', s.
    pose proof (obj_at_Some_lt _ _ _ Hs).
      split; [|exact Hc]. simpl. case_decide; [lia | exact Hs].
Qed.

Lemma Get_head o h k :
  Get (o :: h) (length h) k =
  match own o !! k with
  | Some v => Some v
  | None => match proto o with Some p => Get h p k | None => None end
  end.
Proof. simpl. case_decide; [reflexivity | contradiction]. Qed.

Lemma Get_stringify_head o h :
  Get_stringify (o :: h) (length h) =
  match own_stringify o with
  | Some c => Some c
  | None => match proto o with Some p => Get_stringify h p | None => None end
  end.
Proof. simpl. case_decide; [reflexivity | contradiction]. Qed.

Lemma update_at_head o h f : update_at (o :: h) (length h) f = f o :: h.
Proof. simpl. case_decide; [reflexivity | contradiction]. Qed.

Lemma set_prop_head o h k v :
  set_prop (o :: h) (length h) k v
  = Object (proto o) (<[k:=v]> (own o)) (own_stringify o) :: h.
Proof. apply update_at_head. Qed.

(** ** Closed stores *)

Lemma closed_obj_at h : forall l s c,
  closed h = true -> obj_at h l = Some s -> own_stringify s = Some c -> c < length h.
Proof.
  intros l s c Hcl Hs Hc. unfold closed in Hcl. rewrite forallb_forall in Hcl.
  assert (Hin : In s h).
  { clear Hcl. induction h as [|o h IH]; simpl in *; [discriminate|].
    case_decide; [injection Hs as ->; auto | auto]. }
  specialize (Hcl s Hin). rewrite Hc in Hcl. apply Nat.ltb_lt in Hcl. exact Hcl.
Qed.

Lemma closed_Get_stringify h l c :
  closed h = true -> Get_stringify h l = Some c -> c < length h.
Proof.
  intros Hcl H. destruct (Get_stringify_Some _ _ _ H) as (l' & s & Hs & Hc).
  eapply closed_obj_at; eassumption.
Qed.

Lemma closed_cons o h :
  closed h = true ->
  match own_stringify o with Some c => c <= length h | None => True end ->
  closed (o :: h) = true.
Proof.
  intros Hcl Ho. unfold closed in *. simpl. apply andb_true_intro. split.
  - destruct (own_stringify o); [apply Nat.ltb_lt; lia | reflexivity].
  - rewrite forallb_forall in *. intros s Hs. specialize (Hcl s Hs).
    destruct (own_stringify s); [|reflexivity].
    apply Nat.ltb_lt in Hcl. apply Nat.ltb_lt. lia.
Qed.

(** Allocating an object changes nothing for the objects of a closed
    store. *)
Lemma closure_view_old o h l :
  closed h = true -> l < length h -> closure_view (o :: h) l = closure_view h l.
Proof.
  intros Hcl Hl. unfold closure_view. rewrite Get_stringify_old by assumption.
  destruct (Get_stringify h l) as [c|] eqn:Hc; [|reflexivity]. simpl.
  pose proof (closed_Get_stringify _ _ _ Hcl Hc) as Hlt.
  unfold stringify_combined. rewrite !Get_old by assumption. reflexivity.
Qed.

Lemma stringify_views h l :
  stringify h l =
  match closure_view h l with Some s => s | None => stringify_class h l end.
Proof. unfold stringify, closure_view. destruct (Get_stringify h l); reflexivity. Qed.

Lemma stringify_class_Get h l h' l' :
  (forall k, Get h l k = Get h' l' k) -> stringify_class h l = stringify_class h' l'.
Proof. intros H. unfold stringify_class. rewrite !H. reflexivity. Qed.

Lemma same_view_stringify h l h' l' :
  same_view h l h' l' -> stringify h l = stringify h' l'.
Proof.
  intros [HG HC]. rewrite !stringify_views, HC.
  destruct (closure_view h' l'); [reflexivity | apply stringify_class_Get, HG].
Qed.

Lemma same_view_refl h l : same_view h l h l.
Proof. split; reflexivity. Qed.

Lemma same_view_sym h l h' l' : same_view h l h' l' -> same_view h' l' h l.
Proof. intros [HG HC]. split; [intros k; symmetry; apply HG | symmetry; exact HC]. Qed.

Lemma same_view_trans h1 l1 h2 l2 h3 l3 :
  same_view h1 l1 h2 l2 -> same_view h2 l2 h3 l3 -> same_view h1 l1 h3 l3.
Proof.
  intros [HG HC] [HG' HC']. split; [intros k; rewrite HG; apply HG' | congruence].
Qed.

Lemma unchanged_cons o h : closed h = true -> unchanged h (o :: h).
Proof.
  intros Hcl l Hl. split; [apply obj_at_old, Hl|]. split.
  - intros k. apply Get_old, Hl.
  - apply closure_view_old; assumption.
Qed.

Lemma unchanged_stringify h h' l :
  unchanged h h' -> l < length h -> stringify h' l = stringify h l.
Proof. intros Hun Hl. apply same_view_stringify, (Hun l Hl). Qed.

(** ** The derived object *)

(** [Object.create(this)] then [Object.assign(o, this)]: the new object
    has [this] for prototype and the own properties of [this]. *)
Lemma derive_eq h this :
  derive h this =
  (Object (Some this)
     (match obj_at h this with Some s => own s | None => ∅ end)
     (match obj_at h this with Some s => own_stringify s | None => None end) :: h,
   length h).
Proof.
  unfold derive, Object_create, Object_assign. simpl obj_at. case_decide as He.
  - subst this. rewrite obj_at_beyond by lia. rewrite update_at_head. simpl.
    rewrite (left_id_L ∅ (∪)). reflexivity.
  - destruct (obj_at h this) as [s|] eqn:Hs; [|reflexivity].
    rewrite update_at_head. simpl. rewrite (right_id_L ∅ (∪)).
    destruct (own_stringify s); reflexivity.
Qed.

Lemma Get_derive h this k :
  Get (fst (derive h this)) (snd (derive h this)) k = Get h this k.
Proof.
  rewrite derive_eq. simpl fst. simpl snd. rewrite Get_head. simpl.
  destruct (obj_at h this) as [s|] eqn:Hs.
  - destruct (own s !! k) as [v|] eqn:Hk; [|reflexivity].
    symmetry. eapply Get_own; eassumption.
  - rewrite lookup_empty. reflexivity.
Qed.

Lemma Get_stringify_derive h this :
  Get_stringify (fst (derive h this)) (snd (derive h this)) = Get_stringify h this.
Proof.
  rewrite derive_eq. simpl fst. simpl snd. rewrite Get_stringify_head. simpl.
  destruct (obj_at h this) as [s|] eqn:Hs; [|reflexivity].
  destruct (own_stringify s) as [c|] eqn:Hc; [|reflexivity].
  symmetry. eapply Get_stringify_own; eassumption.
Qed.

Lemma closed_derive h this : closed h = true -> closed (fst (derive h this)) = true.
Proof.
  intros Hcl. rewrite derive_eq. simpl fst. apply closed_cons; [assumption|]. simpl.
  destruct (obj_at h this) as [s|] eqn:Hs; [|exact I].
  destruct (own_stringify s) as [c|] eqn:Hc; [|exact I].
  pose proof (closed_obj_at _ _ _ _ Hcl Hs Hc). lia.
Qed.

Lemma derived_shape h this k v :
  exists obj, derived h this k v = (obj :: h, length h).
Proof. unfold derived. rewrite derive_eq, set_prop_head. eexists. reflexivity. Qed.

Lemma Get_derived h this k v k' :
  Get (fst (derived h this k v)) (snd (derived h this k v)) k'
  = if decide (k' = k) then Some v else Get h this k'.
Proof.
  rewrite <- (Get_derive h this k'). unfold derived. rewrite derive_eq.
  rewrite set_prop_head. simpl fst. simpl snd. rewrite !Get_head. simpl.
  case_decide as Hk.
  - subst k'. rewrite lookup_insert_eq. reflexivity.
  - rewrite lookup_insert_ne by congruence. reflexivity.
Qed.

Lemma Get_stringify_derived h this k v :
  Get_stringify (fst (derived h this k v)) (snd (derived h this k v))
  = Get_stringify h this.
Proof.
  rewrite <- (Get_stringify_derive h this). unfold derived. rewrite derive_eq.
  rewrite set_prop_head. simpl fst. simpl snd. rewrite !Get_stringify_head.
  reflexivity.
Qed.

Lemma closed_derived h this k v :
  closed h = true -> closed (fst (derived h this k v)) = true.
Proof.
  intros Hcl. pose proof (closed_derive h this Hcl) as Hd. revert Hd.
  unfold derived. rewrite derive_eq, set_prop_head. simpl fst.
  unfold closed. simpl. auto.
Qed.

(** ** The six fragment methods *)

(** Each method is its checks, then the derivation, then one assignment. *)
Lemma invoke_guard h this c :
  invoke h this c =
  match guard h this c with
  | Some e => Throw e
  | None => Return (derived h this (target c) (written h this c))
  end.
Proof.
  pose proof (Get_derive h this) as HG. revert HG.
  unfold derived. destruct (derive h this) as [h2 o] eqn:Hd. simpl fst. simpl snd.
  intros HG.
  destruct c as [v|v|v|v|v|v]; cbn [invoke guard target written];
    unfold element, id, class, attr, pseudoClass, pseudoElement;
    rewrite ?Hd, ?HG;
    repeat match goal with
           | |- context [if ?b then _ else _] => destruct b
           end; reflexivity.
Qed.

Lemma invoke_Throw h this c e :
  invoke h this c = Throw e <-> guard h this c = Some e.
Proof.
  rewrite invoke_guard. destruct (guard h this c) as [e'|].
  - split; intros H; injection H as ->; reflexivity.
  - split; intros H; discriminate H.
Qed.

Lemma invoke_Return h this c h' o :
  invoke h this c = Return (h', o) ->
  guard h this c = None /\
  o = length h /\
  (exists obj, h' = obj :: h) /\
  Get_stringify h' o = Get_stringify h this /\
  (forall k, Get h' o k
             = if decide (k = target c) then Some (written h this c) else Get h this k).
Proof.
  rewrite invoke_guard. destruct (guard h this c) as [e|]; [discriminate|].
  pose proof (Get_derived h this (target c) (written h this c)) as HG.
  pose proof (Get_stringify_derived h this (target c) (written h this c)) as HS.
  destruct (derived_shape h this (target c) (written h this c)) as [obj Hobj].
  destruct (derived h this (target c) (written h this c)) as [h2 o2].
  intros H. injection H as -> ->. split; [reflexivity|].
  simpl in HG, HS. injection Hobj as -> ->.
  split; [reflexivity|]. split; [eexists; reflexivity|]. split; assumption.
Qed.

Lemma invoke_closed h this c h' o :
  closed h = true -> invoke h this c = Return (h', o) -> closed h' = true.
Proof.
  intros Hcl. rewrite invoke_guard. destruct (guard h this c) as [e|]; [discriminate|].
  pose proof (closed_derived h this (target c) (written h this c) Hcl) as Hd.
  destruct (derived h this (target c) (written h this c)) as [h2 o2].
  intros H. injection H as -> ->. exact Hd.
Qed.

(** ** Chains *)

Lemma unchanged_refl h : unchanged h h.
Proof. intros l Hl. split; [reflexivity | apply same_view_refl]. Qed.

Lemma unchanged_trans h1 h2 h3 :
  length h1 <= length h2 -> unchanged h1 h2 -> unchanged h2 h3 -> unchanged h1 h3.
Proof.
  intros Hlen H12 H23 l Hl.
  destruct (H12 l Hl) as (Ha & Hb).
  destruct (H23 l ltac:(lia)) as (Ha' & Hb').
  split; [congruence | eapply same_view_trans; eassumption].
Qed.

(** A chain only allocates: it leaves a closed store closed and every
    object it found unchanged. *)
Lemma chain_unchanged cs : forall h l h' o,
  closed h = true -> chain h l cs = Return (h', o) ->
  closed h' = true /\ length h <= length h' /\ unchanged h h'.
Proof.
  induction cs as [|c cs IH]; intros h l h' o Hcl Hch; simpl in Hch.
  - injection Hch as <- <-. split; [assumption|]. split; [lia | apply unchanged_refl].
  - destruct (invoke h l c) as [[h1 o1]|e] eqn:Hinv; [|discriminate].
    pose proof (invoke_closed _ _ _ _ _ Hcl Hinv) as Hcl1.
    destruct (invoke_Return _ _ _ _ _ Hinv) as (_ & _ & [obj ->] & _).
    destruct (IH _ _ _ _ Hcl1 Hch) as (Hcl' & Hlen & Hun).
    split; [assumption|]. simpl in Hlen. split; [lia|].
    eapply unchanged_trans; [| apply unchanged_cons; assumption | exact Hun].
    simpl. lia.
Qed.

(** ** Callers cannot tell apart objects with the same view *)

Lemma guard_same_view h l h' l' c :
  (forall k, Get h l k = Get h' l' k) -> guard h l c = guard h' l' c.
Proof.
  intros HG. destruct c; unfold guard, some_truthy; simpl; rewrite !HG; reflexivity.
Qed.

Lemma written_same_view h l h' l' c :
  (forall k, Get h l k = Get h' l' k) -> written h l c = written h' l' c.
Proof. intros HG. destruct c; simpl; rewrite ?HG; reflexivity. Qed.

Lemma closure_view_derived h this k v :
  closed h = true ->
  closure_view (fst (derived h this k v)) (snd (derived h this k v))
  = closure_view h this.
Proof.
  intros Hcl. unfold closure_view. rewrite Get_stringify_derived.
  destruct (derived_shape h this k v) as [obj ->]. cbn [fst].
  destruct (Get_stringify h this) as [c|] eqn:Hc; [|reflexivity]. cbn [option_map].
  pose proof (closed_Get_stringify _ _ _ Hcl Hc) as Hlt.
  unfold stringify_combined. rewrite !Get_old by assumption. reflexivity.
Qed.

Lemma invoke_same_view h l h' l' c :
  closed h = true -> closed h' = true -> same_view h l h' l' ->
  same_outcome (invoke h l c) (invoke h' l' c).
Proof.
  intros Hcl Hcl' [HG HC]. rewrite !invoke_guard.
  rewrite (guard_same_view h l h' l' c HG).
  destruct (guard h' l' c) as [e|]; [reflexivity|].
  rewrite (written_same_view h l h' l' c HG).
  pose proof (Get_derived h l (target c) (written h' l' c)) as H1.
  pose proof (Get_derived h' l' (target c) (written h' l' c)) as H2.
  pose proof (closure_view_derived h l (target c) (written h' l' c) Hcl) as H3.
  pose proof (closure_view_derived h' l' (target c) (written h' l' c) Hcl') as H4.
  destruct (derived h l (target c) (written h' l' c)) as [h2 o2].
  destruct (derived h' l' (target c) (written h' l' c)) as [h2' o2'].
  simpl in *. split.
  - intros k. rewrite H1, H2, HG. reflexivity.
  - congruence.
Qed.

Lemma chain_same_view cs : forall h l h' l',
  closed h = true -> closed h' = true -> same_view h l h' l' ->
  same_outcome (chain h l cs) (chain h' l' cs).
Proof.
  induction cs as [|c cs IH]; intros h l h' l' Hcl Hcl' Hv; simpl; [exact Hv|].
  pose proof (invoke_same_view h l h' l' c Hcl Hcl' Hv) as Hinv.
  destruct (invoke h l c) as [[h1 o1]|e] eqn:E1;
    destruct (invoke h' l' c) as [[h1' o1']|e'] eqn:E1'; simpl in Hinv;
    try contradiction; [|exact Hinv].
  apply IH;
    [exact (invoke_closed _ _ _ _ _ Hcl E1) | exact (invoke_closed _ _ _ _ _ Hcl' E1')
    | exact Hinv].
Qed.

Lemma chain_result_valid cs : forall h l h' o,
  l < length h -> chain h l cs = Return (h', o) -> o < length h'.
Proof.
  induction cs as [|c cs IH]; intros h l h' o Hl Hch; simpl in Hch.
  - injection Hch as <- <-. exact Hl.
  - destruct (invoke h l c) as [[h1 o1]|e] eqn:Hinv; [|discriminate].
    destruct (invoke_Return _ _ _ _ _ Hinv) as (_ & -> & [obj ->] & _).
    eapply IH; [|exact Hch]. simpl. lia.
Qed.

(** ** [combine] *)

Lemma combine_eq h this s1 c s2 :
  combine h this s1 c s2 =
  let str1 := stringify (Object (Some this) ∅ None :: h) s1 in
  let str2 := stringify (Object (Some this) (<["s1":=str1]> ∅) None :: h) s2 in
  (Object (Some this) (<["c":=c]> (<["s2":=str2]> (<["s1":=str1]> ∅)))
          (Some (length h)) :: h,
   length h).
Proof.
  unfold combine, Object_create, set_stringify. cbv beta iota zeta.
  rewrite !set_prop_head. cbn [proto own own_stringify].
  rewrite update_at_head. reflexivity.
Qed.

Lemma closed_combine h this s1 c s2 :
  closed h = true -> closed (fst (combine h this s1 c s2)) = true.
Proof.
  intros Hcl. rewrite combine_eq. cbv zeta. simpl fst.
  apply closed_cons; [assumption | simpl; lia].
Qed.

(** Every store the program can reach is closed and holds the builder. *)
Lemma reachable_closed h : reachable h -> closed h = true /\ has_builder h.
Proof.
  induction 1 as [|h this c h' o Hr [Hcl Hb] Hinv|h this s1 c s2 Hr [Hcl Hb]].
  - split; reflexivity.
  - split; [eapply invoke_closed; eassumption|].
    destruct (invoke_Return _ _ _ _ _ Hinv) as (_ & _ & [obj ->] & _).
    unfold has_builder in *. pose proof (obj_at_Some_lt _ _ _ Hb).
    rewrite obj_at_old; assumption.
  - split; [apply closed_combine, Hcl|].
    rewrite combine_eq. cbv zeta. simpl fst.
    unfold has_builder in *. pose proof (obj_at_Some_lt _ _ _ Hb).
    rewrite obj_at_old; assumption.
Qed.

(** The rendering of the object [combine] returns. *)
Lemma stringify_combine h this s1 c s2 :
  closed h = true -> s1 < length h -> s2 < length h ->
  stringify (fst (combine h this s1 c s2)) (snd (combine h this s1 c s2))
  = stringify h s1 +:+ " " +:+ c +:+ " " +:+ stringify h s2.
Proof.
  intros Hcl H1 H2. rewrite combine_eq. cbv zeta. simpl fst. simpl snd.
  rewrite (unchanged_stringify h (_ :: h) s1) by (try apply unchanged_cons; assumption).
  rewrite (unchanged_stringify h (_ :: h) s2) by (try apply unchanged_cons; assumption).
  unfold stringify. rewrite Get_stringify_head. simpl own_stringify.
  unfold stringify_combined. rewrite !Get_head. simpl own.
  rewrite lookup_insert_ne by discriminate.
  rewrite lookup_insert_ne by discriminate.
  rewrite lookup_insert_eq.
  rewrite lookup_insert_eq.
  rewrite lookup_insert_ne by discriminate.
  rewrite lookup_insert_eq.
  reflexivity.
Qed.

(** ** The checks, kind by kind *)

Lemma target_key c : target c = key (kind_of c).
Proof. destruct c; reflexivity. Qed.

Lemma key_inj k k' : key k = key k' -> k = k'.
Proof. destruct k, k'; simpl; intros H; try reflexivity; discriminate H. Qed.

(** The checks of a call: a duplicate of a once-only kind first, then a
    later kind already there. *)
Lemma guard_spec h l c :
  guard h l c =
  if singleton (kind_of c) && truthy (Get h l (key (kind_of c)))
  then Some DuplicateViolation
  else if existsb (fun k => truthy (Get h l (key k))) (later (kind_of c))
       then Some OrderViolation
       else None.
Proof.
  destruct c; unfold guard, some_truthy; simpl;
    repeat match goal with
           | |- context [truthy ?g] => destruct (truthy g)
           end; reflexivity.
Qed.

Lemma existsb_later h l k k' :
  rank k < rank k' -> truthy (Get h l (key k')) = true ->
  existsb (fun k => truthy (Get h l (key k))) (later k) = true.
Proof.
  intros Hr Ht. apply existsb_exists. exists k'. split; [|exact Ht].
  destruct k, k'; simpl in Hr; try lia; vm_compute; auto 10.
Qed.

Lemma existsb_later_inv h l k :
  existsb (fun k => truthy (Get h l (key k))) (later k) = true ->
  exists k', rank k < rank k' /\ truthy (Get h l (key k')) = true.
Proof.
  intros H. apply existsb_exists in H as (k' & Hin & Ht). exists k'.
  split; [|exact Ht].
  destruct k, k'; simpl; try lia; vm_compute in Hin; intuition discriminate.
Qed.

(** ** Objects that hold a fragment set *)

Lemma append_nil_r s : s +:+ "" = s.
Proof.
  induction s as [|a s IH]; [reflexivity|].
  change (String a (s +:+ "") = String a s). f_equal. exact IH.
Qed.

Lemma append_assoc s1 s2 s3 : (s1 +:+ s2) +:+ s3 = s1 +:+ s2 +:+ s3.
Proof.
  induction s1 as [|a s1 IH]; [reflexivity|].
  change (String a ((s1 +:+ s2) +:+ s3) = String a (s1 +:+ s2 +:+ s3)).
  f_equal. exact IH.
Qed.

Lemma prefixed_snoc pre l v : prefixed pre (l ++ [v]) = prefixed pre l +:+ pre +:+ v.
Proof.
  induction l as [|w l IH]; simpl.
  - rewrite append_nil_r. reflexivity.
  - rewrite IH, !append_assoc. reflexivity.
Qed.

Lemma prefixed_empty pre l :
  pre <> "" -> String.eqb (prefixed pre l) "" = bool_decide (l = []).
Proof.
  intros Hpre. destruct l as [|v l]; [reflexivity|].
  simpl. destruct pre as [|a pre]; [contradiction | reflexivity].
Qed.

Lemma token_truthy g o :
  token <$> g = Some o -> truthy g = bool_decide (is_Some o).
Proof.
  destruct g as [s|]; simpl; [|discriminate]. intros [= <-].
  unfold token. destruct (String.eqb s ""); reflexivity.
Qed.

Lemma token_ToString g v :
  token <$> g = Some (Some v) -> ToString g = v.
Proof.
  destruct g as [s|]; simpl; [|discriminate]. unfold token.
  destruct (String.eqb s ""); intros [= <-]. reflexivity.
Qed.

Lemma represents_present h l fs k :
  represents h l fs -> truthy (Get h l (key k)) = present fs k.
Proof.
  intros (_ & He & Hi & Hc & Ha & Hpc & Hpe).
  destruct k; simpl; try (eapply token_truthy; eassumption).
  - rewrite Hc. simpl. rewrite prefixed_empty by discriminate. reflexivity.
  - rewrite Hpc. simpl. rewrite prefixed_empty by discriminate. reflexivity.
Qed.

(** The class method renders a represented fragment set as the
    specification's [render] does. *)
Lemma stringify_represents h l fs :
  represents h l fs -> stringify h l = render fs.
Proof.
  intros Hrep. pose proof (represents_present h l fs) as Hp.
  pose proof (Hp KElement Hrep) as Pe. pose proof (Hp KId Hrep) as Pi.
  pose proof (Hp KClass Hrep) as Pc. pose proof (Hp KAttribute Hrep) as Pa.
  pose proof (Hp KPseudoClass Hrep) as Ppc. pose proof (Hp KPseudoElement Hrep) as Ppe.
  destruct Hrep as (Hs & He & Hi & Hc & Ha & Hpc & Hpe).
  unfold stringify. rewrite Hs. unfold stringify_class, render.
  simpl in Pe, Pi, Pc, Pa, Ppc, Ppe. rewrite Pe, Pi, Pc, Pa, Ppc, Ppe.
  f_equal; [|f_equal; [|f_equal; [|f_equal; [|f_equal]]]].
  - destruct (fs_element fs) as [v|]; [apply token_ToString, He | reflexivity].
  - destruct (fs_id fs) as [v|]; [|reflexivity].
    rewrite (token_ToString _ _ Hi). reflexivity.
  - rewrite Hc. simpl. destruct (fs_classes fs); reflexivity.
  - destruct (fs_attribute fs) as [v|]; [|reflexivity].
    rewrite (token_ToString _ _ Ha). reflexivity.
  - rewrite Hpc. simpl. destruct (fs_pseudoClasses fs); reflexivity.
  - destruct (fs_pseudoElement fs) as [v|]; [|reflexivity].
    rewrite (token_ToString _ _ Hpe). reflexivity.
Qed.

Lemma Get_stringify_class_method h : forall l s,
  obj_at h l = Some s -> own_stringify s = None -> proto s = None ->
  Get_stringify h l = None.
Proof.
  induction h as [|o h IH]; intros l s Hs Hc Hp; simpl in *; [reflexivity|].
  case_decide.
  - injection Hs as ->. rewrite Hc, Hp. reflexivity.
  - eapply IH; eassumption.
Qed.

Lemma represents_builder h :
  has_builder h -> represents h cssSelectorBuilder no_fragment.
Proof.
  intros Hb. unfold represents.
  split; [eapply Get_stringify_class_method; [exact Hb | reflexivity..]|].
  repeat split; erewrite Get_own by (try exact Hb; reflexivity); reflexivity.
Qed.

(** A successful call takes the object of a fragment set to the object of
    the fragment set with the fragment added. *)
Lemma represents_invoke h l fs c h' o :
  represents h l fs -> invoke h l c = Return (h', o) ->
  represents h' o (add_fragment fs c).
Proof.
  intros (Hs & He & Hi & Hc & Ha & Hpc & Hpe) Hinv.
  destruct (invoke_Return _ _ _ _ _ Hinv) as (_ & _ & _ & HS & HG).
  unfold represents. rewrite HS, !HG.
  destruct c as [v|v|v|v|v|v]; simpl;
    repeat (case_decide; [try discriminate|]);
    repeat split; try assumption; try reflexivity.
  - rewrite Hc. simpl. rewrite prefixed_snoc. reflexivity.
  - rewrite Hpc. simpl. rewrite prefixed_snoc. reflexivity.
Qed.

Lemma represents_chain cs : forall h l fs h' o,
  represents h l fs -> chain h l cs = Return (h', o) ->
  represents h' o (fold_left add_fragment cs fs).
Proof.
  induction cs as [|c cs IH]; intros h l fs h' o Hrep Hch; simpl in *.
  - injection Hch as <- <-. exact Hrep.
  - destruct (invoke h l c) as [[h1 o1]|e] eqn:Hinv; [|discriminate].
    eapply IH; [|exact Hch]. eapply represents_invoke; eassumption.
Qed.

Lemma has_builder_heap0 : has_builder heap0.
Proof. reflexivity. Qed.

(** ** Copy on write *)

Lemma invoke_unchanged h this c h' o :
  closed h = true -> invoke h this c = Return (h', o) ->
  o = length h /\ length h' = S (length h) /\ unchanged h h'.
Proof.
  intros Hcl Hinv.
  destruct (invoke_Return _ _ _ _ _ Hinv) as (_ & -> & [obj ->] & _).
  split; [reflexivity|]. split; [reflexivity | apply unchanged_cons, Hcl].
Qed.

Lemma combine_unchanged h this s1 c s2 :
  closed h = true ->
  snd (combine h this s1 c s2) = length h /\
  length (fst (combine h this s1 c s2)) = S (length h) /\
  unchanged h (fst (combine h this s1 c s2)).
Proof.
  intros Hcl. rewrite combine_eq. cbv zeta. simpl fst. simpl snd.
  split; [reflexivity|]. split; [reflexivity | apply unchanged_cons, Hcl].
Qed.

(** What [unchanged] gives for one object, spelled out. *)
Lemma unchanged_object h h' l :
  unchanged h h' -> l < length h ->
  obj_at h' l = obj_at h l /\
  (forall k, Get h' l k = Get h l k) /\
  stringify h' l = stringify h l.
Proof.
  intros Hun Hl. destruct (Hun l Hl) as (Ho & HG & HC).
  split; [exact Ho|]. split; [exact HG|]. apply unchanged_stringify; assumption.
Qed.

Lemma obj_at_lt_Some h : forall l, l < length h -> exists o, obj_at h l = Some o.
Proof.
  induction h as [|x h IH]; intros l Hl; simpl in *; [lia|].
  case_decide; [eexists; reflexivity | apply IH; lia].
Qed.

Lemma obj_at_head o h : obj_at (o :: h) (length h) = Some o.
Proof. simpl. rewrite decide_True by reflexivity. reflexivity. Qed.

(** The object a fragment method allocates: [this] for prototype, the own
    properties of [this] with the one property assigned. *)
Lemma derived_eq h this k v :
  derived h this k v =
  (Object (Some this)
     (<[k:=v]> (match obj_at h this with Some s => own s | None => ∅ end))
     (match obj_at h this with Some s => own_stringify s | None => None end) :: h,
   length h).
Proof. unfold derived. rewrite derive_eq, set_prop_head. reflexivity. Qed.



(** ** Rendering *)

(** C3: for every fragment set built by a chain of calls on the builder
    that succeeded, [stringify()] returns the concatenation, in the fixed
    order of the kinds and with nothing between, of the element token,
    ['#' + id] if present, every class token behind ['.'] in insertion
    order, ['[' + attribute + ']'] if present, every pseudo-class token
    behind [':'] in insertion order, and ['::' + pseudoElement] if present
    (a kind is present when it holds a token other than the empty string);
    and [id('main').class('container').class('editable').stringify()] is
    ['#main.container.editable']. *)
Theorem stringify_concatenates_fragments_in_order :
  forall (h : heap) (cs : list call) (h' : heap) (o : loc),
    has_builder h ->
    chain h cssSelectorBuilder cs = Return (h', o) ->
    stringify h' o = render (fragments cs)
    /\ outcome [Id "main"; Class "container"; Class "editable"]
       = Return "#main.container.editable".
Proof.
  intros h cs h' o Hb Hch. split; [|reflexivity].
  apply stringify_represents. unfold fragments.
  eapply represents_chain; [apply represents_builder, Hb | exact Hch].
Qed.

(** [element('a').attr('href$=.png').pseudoClass('focus')] *)
Lemma stringify_concatenates_fragments_in_order_witness :
  let r := chain heap0 cssSelectorBuilder
                 [Element "a"; Attr "href$=.png"; PseudoClass "focus"] in
  stringify (store_of r) (object_of r)
  = render (fragments [Element "a"; Attr "href$=.png"; PseudoClass "focus"])
  /\ outcome [Id "main"; Class "container"; Class "editable"]
     = Return "#main.container.editable".
Proof.
  exact (stringify_concatenates_fragments_in_order heap0
           [Element "a"; Attr "href$=.png"; PseudoClass "focus"] _ _
           has_builder_heap0 eq_refl).
Defined.

(** C4: for two selectors [A] and [B] already built and every combinator
    string [c], [combine(A, c, B).stringify()] is [A.stringify() + " " + c +
    " " + B.stringify()], the combinator as it was passed; the renderings
    of [A] and [B] are the same before and after the call. *)
Theorem combine_stringify :
  forall (h : heap) (this A : loc) (c : string) (B : loc),
    closed h = true -> A < length h -> B < length h ->
    let r := combine h this A c B in
    stringify (fst r) (snd r)
    = stringify h A +:+ " " +:+ c +:+ " " +:+ stringify h B
    /\ stringify (fst r) (snd r)
       = stringify (fst r) A +:+ " " +:+ c +:+ " " +:+ stringify (fst r) B.
Proof.
  intros h this A c B Hcl HA HB r. subst r.
  pose proof (stringify_combine h this A c B Hcl HA HB) as Hs.
  split; [exact Hs|]. rewrite Hs.
  destruct (combine_unchanged h this A c B Hcl) as (_ & _ & Hun).
  rewrite !(unchanged_stringify h _ _ Hun) by assumption. reflexivity.
Qed.

(** [combine(element('div'), '+', element('p'))] *)
Lemma combine_stringify_witness :
  let h := store_of (chain (store_of (chain heap0 cssSelectorBuilder [Element "div"]))
                           cssSelectorBuilder [Element "p"]) in
  let r := combine h cssSelectorBuilder 1 "+" 2 in
  stringify (fst r) (snd r) = stringify h 1 +:+ " " +:+ "+" +:+ " " +:+ stringify h 2
  /\ stringify (fst r) (snd r)
     = stringify (fst r) 1 +:+ " " +:+ "+" +:+ " " +:+ stringify (fst r) 2.
Proof.
  apply (combine_stringify
           (store_of (chain (store_of (chain heap0 cssSelectorBuilder [Element "div"]))
                            cssSelectorBuilder [Element "p"]))
           cssSelectorBuilder 1 "+" 2).
  - reflexivity.
  - vm_compute. lia.
  - vm_compute. lia.
Defined.

(** ** Errors *)

Lemma invoke_duplicate h l c :
  singleton (kind_of c) = true -> truthy (Get h l (key (kind_of c))) = true ->
  invoke h l c = Throw DuplicateViolation.
Proof.
  intros Hs Ht. apply invoke_Throw. rewrite guard_spec, Hs, Ht. reflexivity.
Qed.

Lemma invoke_out_of_order h l c k :
  rank (kind_of c) < rank k -> truthy (Get h l (key k)) = true ->
  invoke h l c =
  Throw (if singleton (kind_of c) && truthy (Get h l (key (kind_of c)))
         then DuplicateViolation else OrderViolation).
Proof.
  intros Hr Ht. apply invoke_Throw. rewrite guard_spec.
  destruct (singleton (kind_of c) && truthy (Get h l (key (kind_of c))));
    [reflexivity|].
  rewrite (existsb_later h l _ k Hr Ht). reflexivity.
Qed.

Lemma invoke_in_order h l c :
  singleton (kind_of c) && truthy (Get h l (key (kind_of c))) = false ->
  (forall k, rank (kind_of c) < rank k -> truthy (Get h l (key k)) = false) ->
  invoke h l c = Return (derived h l (target c) (written h l c)).
Proof.
  intros Hd Hl. rewrite invoke_guard, guard_spec, Hd.
  destruct (existsb (fun k => truthy (Get h l (key k))) (later (kind_of c))) eqn:E;
    [|reflexivity].
  apply existsb_later_inv in E as (k & Hr & Ht). rewrite (Hl k Hr) in Ht. discriminate.
Qed.

Lemma chain_represents h cs h' o :
  has_builder h -> chain h cssSelectorBuilder cs = Return (h', o) ->
  represents h' o (fragments cs).
Proof.
  intros Hb Hch. unfold fragments.
  eapply represents_chain; [apply represents_builder, Hb | exact Hch].
Qed.

(** C5: calling [element] when the element is already set, [id] when the
    id is already set, [pseudoElement] when the pseudo-element is already
    set (the field holds a token, which the empty string is not) fails with
    the error for a fragment that may occur once only, never with the
    ordering error and never with a returned object; this holds for every
    object, and so for the object any chain of calls on the builder has
    reached when its fragment set has the kind. *)
Theorem second_element_id_pseudoElement_is_DuplicateViolation :
  (forall h this v, truthy (Get h this "cssElement") = true ->
     element h this v = Throw DuplicateViolation)
  /\ (forall h this v, truthy (Get h this "cssId") = true ->
        id h this v = Throw DuplicateViolation)
  /\ (forall h this v, truthy (Get h this "cssPseudoElement") = true ->
        pseudoElement h this v = Throw DuplicateViolation)
  /\ (forall h cs h' o c,
        has_builder h -> chain h cssSelectorBuilder cs = Return (h', o) ->
        singleton (kind_of c) = true -> present (fragments cs) (kind_of c) = true ->
        invoke h' o c = Throw DuplicateViolation).
Proof.
  split; [|split; [|split]].
  - intros h this v H. unfold element. rewrite H. reflexivity.
  - intros h this v H. unfold id. rewrite H. reflexivity.
  - intros h this v H. unfold pseudoElement. rewrite H. reflexivity.
  - intros h cs h' o c Hb Hch Hs Hp. apply invoke_duplicate; [exact Hs|].
    rewrite (represents_present h' o (fragments cs)); [exact Hp|].
    eapply chain_represents; eassumption.
Qed.

(** [element('a').id('x')], then [element('b')]. *)
Lemma second_element_id_pseudoElement_is_DuplicateViolation_witness :
  let r := chain heap0 cssSelectorBuilder [Element "a"; Id "x"] in
  invoke (store_of r) (object_of r) (Element "b") = Throw DuplicateViolation.
Proof.
  destruct second_element_id_pseudoElement_is_DuplicateViolation as (_ & _ & _ & H).
  exact (H heap0 [Element "a"; Id "x"] _ _ (Element "b") has_builder_heap0
           eq_refl eq_refl eq_refl).
Defined.

(** C6 (as stated, refuted): after [element('a')] the element is set, and
    [element('b')] fails with the error for a fragment that may occur once
    only, not with the ordering error. *)
Lemma second_element_is_not_OrderViolation :
  let r := chain heap0 cssSelectorBuilder [Element "a"] in
  truthy (Get (store_of r) (object_of r) "cssElement") = true
  /\ element (store_of r) (object_of r) "b" = Throw DuplicateViolation
  /\ element (store_of r) (object_of r) "b" <> Throw OrderViolation.
Proof. cbv zeta. split; [reflexivity|]. split; [reflexivity | discriminate]. Qed.

(** C6 (amended): [element(value)] fails with [DuplicateViolation] if the
    element is already set; otherwise it fails with [OrderViolation] if a
    fragment of a later kind (id, class, attribute, pseudo-class,
    pseudo-element) is present; otherwise it returns a new object whose
    element is [value] and whose other properties are those of [this]. *)
Theorem element_checks_then_derives :
  forall (h : heap) (this : loc) (value : string),
    (truthy (Get h this "cssElement") = true ->
       element h this value = Throw DuplicateViolation)
    /\ (truthy (Get h this "cssElement") = false ->
        (exists k, rank KElement < rank k /\ truthy (Get h this (key k)) = true) ->
        element h this value = Throw OrderViolation)
    /\ (truthy (Get h this "cssElement") = false ->
        (forall k, rank KElement < rank k -> truthy (Get h this (key k)) = false) ->
        exists h' o,
          element h this value = Return (h', o) /\
          obj_at h o = None /\
          Get h' o "cssElement" = Some value /\
          (forall k, k <> "cssElement" -> Get h' o k = Get h this k) /\
          Get_stringify h' o = Get_stringify h this).
Proof.
  intros h this v. split; [|split].
  - intros H. unfold element. rewrite H. reflexivity.
  - intros H (k & Hr & Ht).
    pose proof (invoke_out_of_order h this (Element v) k Hr Ht) as Hi.
    simpl in Hi. rewrite H in Hi. exact Hi.
  - intros H Hl.
    pose proof (invoke_in_order h this (Element v)) as Hi. simpl in Hi.
    rewrite H in Hi. specialize (Hi eq_refl Hl).
    destruct (derived h this "cssElement" v) as [h' o] eqn:Hd.
    destruct (invoke_Return h this (Element v) h' o Hi) as (_ & -> & _ & HS & HG).
    exists h', (length h). split; [exact Hi|].
    split; [apply obj_at_beyond; lia|]. split; [|split; [|exact HS]].
    + rewrite HG. cbn [target written]. rewrite decide_True by reflexivity. reflexivity.
    + intros k Hk. rewrite HG. cbn [target]. rewrite decide_False by exact Hk.
      reflexivity.
Qed.

(** [cssSelectorBuilder.element('div')] *)
Lemma element_checks_then_derives_witness :
  exists h' o,
    element heap0 cssSelectorBuilder "div" = Return (h', o) /\
    obj_at heap0 o = None /\
    Get h' o "cssElement" = Some "div" /\
    (forall k, k <> "cssElement" -> Get h' o k = Get heap0 cssSelectorBuilder k) /\
    Get_stringify h' o = Get_stringify heap0 cssSelectorBuilder.
Proof.
  apply (element_checks_then_derives heap0 cssSelectorBuilder "div").
  - reflexivity.
  - intros k Hk. destruct k; reflexivity.
Defined.

(** *** What stays set along a chain *)

Lemma chain_app h l cs1 : forall cs2,
  chain h l (cs1 ++ cs2) =
  match chain h l cs1 with
  | Return (h', o) => chain h' o cs2
  | Throw e => Throw e
  end.
Proof.
  revert h l. induction cs1 as [|c cs1 IH]; intros h l cs2; simpl; [reflexivity|].
  destruct (invoke h l c) as [[h' o]|e]; [apply IH | reflexivity].
Qed.

Lemma truthy_written h l c : leaves_set c = true -> truthy (Some (written h l c)) = true.
Proof.
  destruct c as [v|v|v|v|v|v]; simpl; intros H; try exact H.
  - destruct (ToString (Get h l "cssClass")); reflexivity.
  - destruct (ToString (Get h l "cssPseudoClass")); reflexivity.
Qed.

Lemma invoke_leaves_set h l c h' o :
  invoke h l c = Return (h', o) -> leaves_set c = true ->
  truthy (Get h' o (key (kind_of c))) = true.
Proof.
  intros Hinv Hs. destruct (invoke_Return _ _ _ _ _ Hinv) as (_ & _ & _ & _ & HG).
  rewrite HG, target_key, decide_True by reflexivity. apply truthy_written, Hs.
Qed.

(** A field that holds a non-empty string keeps one for the rest of a
    chain that returns; for the attribute, which [attr] assigns anew, as
    long as [attr] is not called again. *)
Lemma truthy_persists cs : forall h l h' o k,
  chain h l cs = Return (h', o) ->
  truthy (Get h l (key k)) = true ->
  (k = KAttribute -> Forall (fun c => kind_of c <> KAttribute) cs) ->
  truthy (Get h' o (key k)) = true.
Proof.
  induction cs as [|c cs IH]; intros h l h' o k Hch Ht Hattr; simpl in Hch.
  - injection Hch as <- <-. exact Ht.
  - destruct (invoke h l c) as [[h1 o1]|e] eqn:Hinv; [|discriminate].
    apply (IH h1 o1 h' o k Hch).
    + destruct (decide (kind_of c = k)) as [Hk|Hk].
      * subst k. destruct (singleton (kind_of c)) eqn:Hs.
        -- rewrite (invoke_duplicate h l c Hs Ht) in Hinv. discriminate.
        -- apply (invoke_leaves_set h l c h1 o1 Hinv).
           destruct c; simpl in *; try reflexivity; try discriminate.
           specialize (Hattr eq_refl). inversion Hattr as [|? ? Hc _]; subst.
           contradiction.
      * destruct (invoke_Return _ _ _ _ _ Hinv) as (_ & _ & _ & _ & HG).
        rewrite HG, target_key, decide_False; [exact Ht|].
        intros E. apply Hk. symmetry. apply key_inj, E.
    + intros Hk. specialize (Hattr Hk). inversion Hattr; assumption.
Qed.

(** A call made out of order after a call [c0] of the chain that left its
    field set. *)
Lemma invoke_after_set h b cs1 c0 cs2 h' o c :
  chain h b (cs1 ++ c0 :: cs2) = Return (h', o) ->
  leaves_set c0 = true ->
  (kind_of c0 = KAttribute -> Forall (fun c' => kind_of c' <> KAttribute) cs2) ->
  rank (kind_of c) < rank (kind_of c0) ->
  invoke h' o c =
  Throw (if singleton (kind_of c) && truthy (Get h' o (key (kind_of c)))
         then DuplicateViolation else OrderViolation).
Proof.
  intros Hch Hs Hattr Hr. rewrite chain_app in Hch.
  destruct (chain h b cs1) as [[h1 o1]|e]; [|discriminate]. simpl in Hch.
  destruct (invoke h1 o1 c0) as [[h2 o2]|e] eqn:Hinv; [|discriminate].
  apply (invoke_out_of_order h' o c (kind_of c0) Hr).
  apply (truthy_persists cs2 h2 o2 h' o (kind_of c0) Hch); [|exact Hattr].
  apply (invoke_leaves_set h1 o1 c0 h2 o2 Hinv Hs).
Qed.

(** C7 (as stated, refuted): after [id('a').class('b')] a class is
    present; [id('c')] would add an id, a kind before the class, and fails
    with the error for a fragment that may occur once only, not with the
    ordering error.  And [class] after [attr] has been set does not always
    fail: [attr('')] replaces the attribute [attr('x')] set, after which
    [class('c')] returns. *)
Lemma id_before_class_is_not_OrderViolation :
  let r := chain heap0 cssSelectorBuilder [Id "a"; Class "b"] in
  rank (kind_of (Id "c")) < rank KClass
  /\ present (fragments [Id "a"; Class "b"]) KClass = true
  /\ truthy (Get (store_of r) (object_of r) (key KClass)) = true
  /\ id (store_of r) (object_of r) "c" = Throw DuplicateViolation
  /\ id (store_of r) (object_of r) "c" <> Throw OrderViolation
  /\ outcome [Attr "x"] = Return "[x]"
  /\ outcome [Attr "x"; Attr ""; Class "c"] = Return ".c".
Proof.
  cbv zeta. split; [simpl; lia|]. repeat (split; [reflexivity|]).
  split; [discriminate|]. split; reflexivity.
Qed.

(** C7 (amended): a call that would add a fragment of a kind before a kind
    already present (its field holds a non-empty string when the call is
    made) fails: with [OrderViolation], unless the call is [element] or
    [id] (the once-only kinds that have a later kind) and its own field is
    already set, in which case it fails with [DuplicateViolation].  In
    particular, in every chain that returned, [class] fails with
    [OrderViolation] after [pseudoClass] was called, after [pseudoElement]
    was called with a non-empty token, and after [attr] was called with a
    non-empty token and not called again since; [attr] fails with
    [OrderViolation] after [pseudoClass] was called and after
    [pseudoElement] was called with a non-empty token.  All of it also
    holds with presence read off the fragment set of a chain of calls on
    the builder. *)
Theorem out_of_order_call_fails :
  (forall h this c k,
     rank (kind_of c) < rank k -> truthy (Get h this (key k)) = true ->
     invoke h this c =
     Throw (if singleton (kind_of c) && truthy (Get h this (key (kind_of c)))
            then DuplicateViolation else OrderViolation))
  /\ (forall h this v,
        truthy (Get h this "cssAttr") = true \/
        truthy (Get h this "cssPseudoClass") = true \/
        truthy (Get h this "cssPseudoElement") = true ->
        class h this v = Throw OrderViolation)
  /\ (forall h this v,
        truthy (Get h this "cssPseudoClass") = true \/
        truthy (Get h this "cssPseudoElement") = true ->
        attr h this v = Throw OrderViolation)
  /\ (forall h cs h' o c k,
        has_builder h -> chain h cssSelectorBuilder cs = Return (h', o) ->
        rank (kind_of c) < rank k -> present (fragments cs) k = true ->
        invoke h' o c =
        Throw (if singleton (kind_of c) && present (fragments cs) (kind_of c)
               then DuplicateViolation else OrderViolation))
  /\ (forall h b cs1 c0 cs2 h' o c,
        chain h b (cs1 ++ c0 :: cs2) = Return (h', o) ->
        leaves_set c0 = true ->
        (kind_of c0 = KAttribute -> Forall (fun c' => kind_of c' <> KAttribute) cs2) ->
        rank (kind_of c) < rank (kind_of c0) ->
        invoke h' o c =
        Throw (if singleton (kind_of c) && truthy (Get h' o (key (kind_of c)))
               then DuplicateViolation else OrderViolation))
  /\ (forall h b cs1 c0 cs2 h' o v,
        chain h b (cs1 ++ c0 :: cs2) = Return (h', o) ->
        leaves_set c0 = true ->
        kind_of c0 = KPseudoClass \/ kind_of c0 = KPseudoElement \/
        (kind_of c0 = KAttribute /\ Forall (fun c' => kind_of c' <> KAttribute) cs2) ->
        class h' o v = Throw OrderViolation)
  /\ (forall h b cs1 c0 cs2 h' o v,
        chain h b (cs1 ++ c0 :: cs2) = Return (h', o) ->
        leaves_set c0 = true ->
        kind_of c0 = KPseudoClass \/ kind_of c0 = KPseudoElement ->
        attr h' o v = Throw OrderViolation).
Proof.
  split; [|split; [|split; [|split; [|split; [|split]]]]].
  - intros h this c k. apply invoke_out_of_order.
  - intros h this v [H | [H | H]].
    + exact (invoke_out_of_order h this (Class v) KAttribute ltac:(simpl; lia) H).
    + exact (invoke_out_of_order h this (Class v) KPseudoClass ltac:(simpl; lia) H).
    + exact (invoke_out_of_order h this (Class v) KPseudoElement ltac:(simpl; lia) H).
  - intros h this v [H | H].
    + exact (invoke_out_of_order h this (Attr v) KPseudoClass ltac:(simpl; lia) H).
    + exact (invoke_out_of_order h this (Attr v) KPseudoElement ltac:(simpl; lia) H).
  - intros h cs h' o c k Hb Hch Hr Hp.
    pose proof (chain_represents _ _ _ _ Hb Hch) as Hrep.
    rewrite <- (represents_present h' o (fragments cs) (kind_of c) Hrep).
    apply (invoke_out_of_order h' o c k Hr).
    rewrite (represents_present h' o (fragments cs) k Hrep). exact Hp.
  - intros h b cs1 c0 cs2 h' o c. apply invoke_after_set.
  - intros h b cs1 c0 cs2 h' o v Hch Hs Hk.
    apply (invoke_after_set h b cs1 c0 cs2 h' o (Class v) Hch Hs).
    + intros Ha. destruct Hk as [Hk | [Hk | [_ Hk]]]; [congruence | congruence | exact Hk].
    + destruct Hk as [Hk | [Hk | [Hk _]]]; rewrite Hk; simpl; lia.
  - intros h b cs1 c0 cs2 h' o v Hch Hs Hk.
    apply (invoke_after_set h b cs1 c0 cs2 h' o (Attr v) Hch Hs).
    + intros Ha. destruct Hk as [Hk | Hk]; congruence.
    + destruct Hk as [Hk | Hk]; rewrite Hk; simpl; lia.
Qed.

(** [element('a').attr('x').attr('y')], then [class('c')]. *)
Lemma out_of_order_call_fails_witness :
  let r := chain heap0 cssSelectorBuilder ([Element "a"; Attr "x"] ++ Attr "y" :: []) in
  class (store_of r) (object_of r) "c" = Throw OrderViolation.
Proof.
  destruct out_of_order_call_fails as (_ & _ & _ & _ & _ & H & _).
  apply (H heap0 cssSelectorBuilder [Element "a"; Attr "x"] (Attr "y") [] _ _ "c" eq_refl
           eq_refl).
  right. right. split; [reflexivity | constructor].
Defined.

(** ** Empty tokens *)

Lemma existsb_agree {A} (f g : A -> bool) (l : list A) :
  (forall x, In x l -> f x = g x) -> existsb f l = existsb g l.
Proof.
  induction l as [|a l IH]; intros H; simpl; [reflexivity|].
  rewrite (H a (or_introl eq_refl)), IH; [reflexivity|].
  intros x Hx. apply H. right. exact Hx.
Qed.

Lemma later_eq k :
  later k =
  match k with
  | KElement => [KId; KClass; KAttribute; KPseudoClass; KPseudoElement]
  | KId => [KClass; KAttribute; KPseudoClass; KPseudoElement]
  | KClass => [KAttribute; KPseudoClass; KPseudoElement]
  | KAttribute => [KPseudoClass; KPseudoElement]
  | KPseudoClass => [KPseudoElement]
  | KPseudoElement => []
  end.
Proof. destruct k; reflexivity. Qed.

(** The checks read nothing but the truthiness of the six properties. *)
Lemma guard_truthy h l h' l' c :
  (forall k, truthy (Get h l (key k)) = truthy (Get h' l' (key k))) ->
  guard h l c = guard h' l' c.
Proof.
  intros H. rewrite !guard_spec, later_eq.
  pose proof (H KElement) as H1. pose proof (H KId) as H2. pose proof (H KClass) as H3.
  pose proof (H KAttribute) as H4. pose proof (H KPseudoClass) as H5.
  pose proof (H KPseudoElement) as H6. simpl in H1, H2, H3, H4, H5, H6.
  destruct (kind_of c); simpl; rewrite ?H1, ?H2, ?H3, ?H4, ?H5, ?H6; reflexivity.
Qed.

Lemma fragment_truthy (F : string -> string) g g' :
  truthy g = truthy g' -> (truthy g = true -> g = g') ->
  (if truthy g then F (ToString g) else "")
  = (if truthy g' then F (ToString g') else "").
Proof.
  intros Ht Hg. rewrite <- Ht. destruct (truthy g); [|reflexivity].
  rewrite (Hg eq_refl). reflexivity.
Qed.

(** The class method reads a property only where it is truthy. *)
Lemma stringify_class_truthy h l h' l' :
  (forall k, truthy (Get h l (key k)) = truthy (Get h' l' (key k))) ->
  (forall k, truthy (Get h l (key k)) = true -> Get h l (key k) = Get h' l' (key k)) ->
  stringify_class h l = stringify_class h' l'.
Proof.
  intros Ht Hg. unfold stringify_class.
  pose proof (fun F k => fragment_truthy F _ _ (Ht k) (Hg k)) as Hf.
  pose proof (Hf (fun s => s) KElement) as E1.
  pose proof (Hf (fun s => "#" +:+ s) KId) as E2.
  pose proof (Hf (fun s => s) KClass) as E3.
  pose proof (Hf (fun s => "[" +:+ s +:+ "]") KAttribute) as E4.
  pose proof (Hf (fun s => s) KPseudoClass) as E5.
  pose proof (Hf (fun s => "::" +:+ s) KPseudoElement) as E6.
  cbn [key] in E1, E2, E3, E4, E5, E6. cbv beta in E1, E2, E3, E4, E5, E6.
  rewrite E1, E2, E3, E4, E5, E6. reflexivity.
Qed.

Lemma invoke_closure_view h this c h' o :
  closed h = true -> invoke h this c = Return (h', o) ->
  closure_view h' o = closure_view h this.
Proof.
  intros Hcl. rewrite invoke_guard. destruct (guard h this c) as [e|]; [discriminate|].
  pose proof (closure_view_derived h this (target c) (written h this c) Hcl) as Hv.
  destruct (derived h this (target c) (written h this c)) as [h2 o2].
  intros H. injection H as -> ->. exact Hv.
Qed.

Lemma written_overwrites h this c :
  overwrites (kind_of c) = true -> written h this c = value c.
Proof. destruct c; simpl; intros H; try reflexivity; discriminate H. Qed.

(** C10 (as stated, refuted): the empty token passed to [class] is not
    treated as no fragment: [class('')] renders ['.'] where the builder
    renders nothing, and a class is then present for the ordering check,
    so that [element('x')] fails where it succeeds on the builder. *)
Lemma empty_class_token_is_a_fragment :
  let r := chain heap0 cssSelectorBuilder [Class ""] in
  stringify (store_of r) (object_of r) = "."
  /\ stringify heap0 cssSelectorBuilder = ""
  /\ element (store_of r) (object_of r) "x" = Throw OrderViolation
  /\ outcome [Element "x"] = Return "x".
Proof. cbv zeta. repeat split; reflexivity. Qed.

(** C10 (amended): an empty-string token passed to [element], [id],
    [attr] or [pseudoElement] is treated as if the fragment were absent:
    after the call the field does not count as set for the duplicate and
    ordering checks (a following call of the same kind succeeds, so
    [element('')] followed by [element('x')] succeeds, and where the field
    was not set before, every check is what it was before the call), and
    [stringify()] renders nothing for that fragment. *)
Theorem empty_token_is_no_fragment :
  (forall h this c h' o,
     overwrites (kind_of c) = true -> value c = "" ->
     invoke h this c = Return (h', o) ->
     truthy (Get h' o (key (kind_of c))) = false
     /\ (forall k, k <> kind_of c -> Get h' o (key k) = Get h this (key k))
     /\ (forall c', kind_of c' = kind_of c -> exists r, invoke h' o c' = Return r)
     /\ (singleton (kind_of c) = true -> truthy (Get h this (key (kind_of c))) = false)
     /\ (truthy (Get h this (key (kind_of c))) = false ->
         (forall c', guard h' o c' = guard h this c')
         /\ (closed h = true -> stringify h' o = stringify h this)))
  /\ (forall h cs c h' o,
        has_builder h -> overwrites (kind_of c) = true -> value c = "" ->
        chain h cssSelectorBuilder (cs ++ [c]) = Return (h', o) ->
        present (fragments (cs ++ [c])) (kind_of c) = false
        /\ stringify h' o = render (fragments (cs ++ [c])))
  /\ outcome [Element ""; Element "x"] = Return "x".
Proof.
  split; [|split; [|reflexivity]].
  - intros h this c h' o Ho Hv Hinv.
    destruct (invoke_Return _ _ _ _ _ Hinv) as (Hg & _ & _ & HS & HG).
    rewrite (written_overwrites h this c Ho), Hv, target_key in HG.
    assert (Hown : Get h' o (key (kind_of c)) = Some "").
    { rewrite HG, decide_True by reflexivity. reflexivity. }
    assert (Hother : forall k, k <> kind_of c -> Get h' o (key k) = Get h this (key k)).
    { intros k Hk. rewrite HG, decide_False; [reflexivity|].
      intros E. apply Hk, key_inj, E. }
    assert (Hsame : truthy (Get h this (key (kind_of c))) = false ->
                    forall k, truthy (Get h' o (key k)) = truthy (Get h this (key k))).
    { intros Hf k. destruct (decide (k = kind_of c)) as [->|Hk].
      - rewrite Hown, Hf. reflexivity.
      - rewrite (Hother k Hk). reflexivity. }
    rewrite guard_spec in Hg.
    assert (Hsingle : singleton (kind_of c) = true ->
                      truthy (Get h this (key (kind_of c))) = false).
    { intros Hs. rewrite Hs in Hg. simpl in Hg.
      destruct (truthy (Get h this (key (kind_of c)))); [discriminate | reflexivity]. }
    split; [rewrite Hown; reflexivity|]. split; [exact Hother|].
    split; [|split; [exact Hsingle|]].
    + intros c' Hk. rewrite invoke_guard, guard_spec, Hk, Hown. simpl truthy.
      rewrite andb_false_r.
      assert (E : existsb (fun k => truthy (Get h' o (key k))) (later (kind_of c))
                  = existsb (fun k => truthy (Get h this (key k))) (later (kind_of c))).
      { apply existsb_agree. intros k Hin. rewrite Hother; [reflexivity|].
        intros ->. rewrite later_eq in Hin.
        destruct (kind_of c); simpl in Hin; intuition discriminate. }
      rewrite E.
      destruct (singleton (kind_of c) && truthy (Get h this (key (kind_of c))));
        [discriminate|].
      destruct (existsb _ (later (kind_of c))); [discriminate|].
      eexists. reflexivity.
    + intros Hf. split.
      * intros c'. apply guard_truthy. apply Hsame, Hf.
      * intros Hcl. rewrite !stringify_views.
        rewrite (invoke_closure_view _ _ _ _ _ Hcl Hinv).
        destruct (closure_view h this); [reflexivity|].
        apply stringify_class_truthy; [apply Hsame, Hf|].
        intros k Ht. destruct (decide (k = kind_of c)) as [->|Hk].
        -- rewrite Hown in Ht. discriminate.
        -- apply Hother, Hk.
  - intros h cs c h' o Hb Ho Hv Hch. split.
    + unfold fragments. rewrite fold_left_app. simpl.
      destruct c; simpl in *; try discriminate Ho; subst; reflexivity.
    + apply stringify_represents. eapply chain_represents; eassumption.
Qed.

(** [id('main').attr('')] *)
Lemma empty_token_is_no_fragment_witness :
  let r := chain heap0 cssSelectorBuilder ([Id "main"] ++ [Attr ""]) in
  present (fragments ([Id "main"] ++ [Attr ""])) (kind_of (Attr "")) = false
  /\ stringify (store_of r) (object_of r) = render (fragments ([Id "main"] ++ [Attr ""])).
Proof.
  destruct empty_token_is_no_fragment as (_ & H & _).
  exact (H heap0 [Id "main"] (Attr "") _ _ has_builder_heap0 eq_refl eq_refl eq_refl).
Defined.

(** ** The chains the builder accepts *)

Lemma rank_inj k k' : rank k = rank k' -> k = k'.
Proof. destruct k, k'; simpl; intros H; try reflexivity; discriminate H. Qed.

Lemma present_add_fragment fs c k :
  value c <> "" ->
  present (add_fragment fs c) k = present fs k || bool_decide (kind_of c = k).
Proof.
  intros Hv.
  assert (Ht : token (value c) = Some (value c)).
  { unfold token. destruct (String.eqb_spec (value c) ""); [contradiction | reflexivity]. }
  assert (Hl : forall l : list string, bool_decide ((l ++ [value c])%list = []) = false).
  { intros l. apply bool_decide_eq_false. destruct l; discriminate. }
  destruct c, k; simpl in *; rewrite ?Ht, ?Hl, ?orb_false_r, ?orb_true_r;
    reflexivity.
Qed.

Lemma guard_None_iff h l c :
  guard h l c = None <->
  (singleton (kind_of c) = true -> truthy (Get h l (key (kind_of c))) = false) /\
  (forall k, rank (kind_of c) < rank k -> truthy (Get h l (key k)) = false).
Proof.
  rewrite guard_spec. split.
  - intros H.
    destruct (singleton (kind_of c) && truthy (Get h l (key (kind_of c)))) eqn:E1;
      [discriminate|].
    destruct (existsb _ (later (kind_of c))) eqn:E2; [discriminate|]. split.
    + intros Hs. rewrite Hs in E1. exact E1.
    + intros k Hr. destruct (truthy (Get h l (key k))) eqn:Ht; [|reflexivity].
      rewrite (existsb_later h l _ k Hr Ht) in E2. discriminate.
  - intros [H1 H2].
    destruct (singleton (kind_of c)) eqn:Hs; simpl.
    + rewrite (H1 eq_refl).
      destruct (existsb _ (later (kind_of c))) eqn:E2; [|reflexivity].
      apply existsb_later_inv in E2 as (k & Hr & Ht). rewrite (H2 k Hr) in Ht. discriminate.
    + destruct (existsb _ (later (kind_of c))) eqn:E2; [|reflexivity].
      apply existsb_later_inv in E2 as (k & Hr & Ht). rewrite (H2 k Hr) in Ht. discriminate.
Qed.

Lemma may_follow_spec c' c :
  may_follow c' c = true <->
  rank (kind_of c') < rank (kind_of c) \/
  (kind_of c' = kind_of c /\ singleton (kind_of c) = false).
Proof.
  unfold may_follow. rewrite orb_true_iff, andb_true_iff, Nat.ltb_lt, Nat.eqb_eq,
    negb_true_iff.
  split; intros [H | [H1 H2]]; auto; right; split; auto.
  - apply rank_inj, H1.
  - rewrite H1. reflexivity.
Qed.

(** With the kinds present being those of the calls made so far, a call
    passes its checks exactly when it may follow each of them. *)
Lemma guard_may_follow h l fs earlier c :
  represents h l fs ->
  (forall k, present fs k = existsb (fun c' => bool_decide (kind_of c' = k)) earlier) ->
  returns (invoke h l c) = forallb (fun c' => may_follow c' c) earlier.
Proof.
  intros Hrep Hseen.
  assert (Hp : forall k, truthy (Get h l (key k)) = true <->
                         exists c', In c' earlier /\ kind_of c' = k).
  { intros k. rewrite (represents_present h l fs k Hrep), Hseen, existsb_exists.
    split; intros (c' & Hin & Hk); exists c'; split; auto.
    - apply bool_decide_eq_true in Hk. exact Hk.
    - apply bool_decide_eq_true. exact Hk. }
  apply eq_true_iff_eq. rewrite forallb_forall.
  rewrite invoke_guard.
  destruct (guard h l c) as [e|] eqn:Hg; simpl.
  - split; [discriminate|]. intros Hall. exfalso.
    assert (Hn : guard h l c = None); [|congruence].
    apply guard_None_iff. split.
    + intros Hs. destruct (truthy (Get h l (key (kind_of c)))) eqn:Ht; [|reflexivity].
      apply Hp in Ht as (c' & Hin & Hk).
      apply Hall, may_follow_spec in Hin as [Hr | [_ Hns]]; [rewrite Hk in Hr; lia | congruence].
    + intros k Hr. destruct (truthy (Get h l (key k))) eqn:Ht; [|reflexivity].
      apply Hp in Ht as (c' & Hin & Hk).
      apply Hall, may_follow_spec in Hin as [Hr' | [Hk' _]]; [rewrite Hk in Hr'; lia|].
      rewrite Hk in Hk'. subst k. lia.
  - split; [|reflexivity]. intros _ c' Hin.
    apply guard_None_iff in Hg as [H1 H2]. apply may_follow_spec.
    destruct (Nat.lt_trichotomy (rank (kind_of c')) (rank (kind_of c))) as [Hlt|[Heq|Hgt]].
    + left. exact Hlt.
    + right. apply rank_inj in Heq. split; [exact Heq|].
      destruct (singleton (kind_of c)) eqn:Hs; [|reflexivity].
      assert (Ht : truthy (Get h l (key (kind_of c))) = true).
      { apply Hp. exists c'. auto. }
      rewrite (H1 eq_refl) in Ht. discriminate.
    + assert (Ht : truthy (Get h l (key (kind_of c'))) = true).
      { apply Hp. exists c'. auto. }
      rewrite (H2 _ Hgt) in Ht. discriminate.
Qed.

Lemma chain_accepted_after cs : forall h l fs earlier,
  represents h l fs ->
  (forall k, present fs k = existsb (fun c' => bool_decide (kind_of c' = k)) earlier) ->
  (forall c, In c cs -> value c <> "") ->
  returns (chain h l cs) = accepted_after earlier cs.
Proof.
  induction cs as [|c cs IH]; intros h l fs earlier Hrep Hseen Hv; simpl; [reflexivity|].
  rewrite <- (guard_may_follow h l fs earlier c Hrep Hseen).
  destruct (invoke h l c) as [[h' o]|e] eqn:Hinv; simpl; [|reflexivity].
  apply (IH h' o (add_fragment fs c)).
  - eapply represents_invoke; eassumption.
  - intros k. rewrite present_add_fragment by (apply Hv; left; reflexivity).
    rewrite existsb_app, Hseen. simpl. rewrite orb_false_r. reflexivity.
  - intros c' Hin. apply Hv. right. exact Hin.
Qed.

(** X1: which chains succeed: a chain of calls with non-empty tokens on
    the builder returns (no call throws) exactly when every call may
    follow every earlier one: its kind comes later in the fixed order, or
    it is the same kind and that kind is class, attribute or
    pseudo-class. *)
Theorem chain_returns_iff_accepted :
  forall (h : heap) (cs : list call),
    has_builder h ->
    (forall c, In c cs -> value c <> "") ->
    returns (chain h cssSelectorBuilder cs) = accepted cs.
Proof.
  intros h cs Hb Hv. unfold accepted.
  apply (chain_accepted_after cs h cssSelectorBuilder no_fragment []);
    [apply represents_builder, Hb | | exact Hv].
  intros k. destruct k; reflexivity.
Qed.

Lemma chain_returns_iff_accepted_witness :
  returns (chain heap0 cssSelectorBuilder
                 [Element "a"; Class "b"; Class "c"; Attr "d"; Id "e"])
  = accepted [Element "a"; Class "b"; Class "c"; Attr "d"; Id "e"].
Proof.
  apply (chain_returns_iff_accepted heap0); [reflexivity|].
  intros c Hin. simpl in Hin.
  repeat (destruct Hin as [<- | Hin]; [discriminate|]). contradiction.
Defined.


(** ** The builder itself *)

(** X2: the exported builder stays empty: in every store that holds it,
    whatever was derived from it, it renders the empty string and any
    fragment method called on it returns. *)
Theorem builder_stays_empty :
  forall (h : heap),
    has_builder h ->
    stringify h cssSelectorBuilder = ""
    /\ forall c, returns (invoke h cssSelectorBuilder c) = true.
Proof.
  intros h Hb. pose proof (represents_builder h Hb) as Hrep. split.
  - rewrite (stringify_represents _ _ _ Hrep). reflexivity.
  - intros c.
    rewrite (guard_may_follow h cssSelectorBuilder no_fragment [] c Hrep); [reflexivity|].
    intros k. destruct k; reflexivity.
Qed.

(** The store after [element('div').id('main')] and [class('x')]. *)
Lemma builder_stays_empty_witness :
  let h := store_of (chain (store_of (chain heap0 cssSelectorBuilder
                                            [Element "div"; Id "main"]))
                           cssSelectorBuilder [Class "x"]) in
  stringify h cssSelectorBuilder = ""
  /\ forall c, returns (invoke h cssSelectorBuilder c) = true.
Proof.
  apply (builder_stays_empty
           (store_of (chain (store_of (chain heap0 cssSelectorBuilder
                                             [Element "div"; Id "main"]))
                            cssSelectorBuilder [Class "x"]))).
  reflexivity.
Defined.

(** ** Calls on a combined selector *)

(** X3: a fragment method called on the object [combine] returned does not
    show: [Object.assign] copies the [stringify] closure of the combined
    object onto the derived one, which then renders the combined selector
    and nothing of the fragment. *)
Theorem fragment_on_combined_selector_is_not_rendered :
  forall (h : heap) (this A : loc) (c : string) (B : loc) (call : call)
         (h' : heap) (o' : loc),
    closed h = true -> A < length h -> B < length h ->
    invoke (fst (combine h this A c B)) (snd (combine h this A c B)) call
    = Return (h', o') ->
    stringify h' o' = stringify h A +:+ " " +:+ c +:+ " " +:+ stringify h B.
Proof.
  intros h this A c B call h' o' Hcl HA HB Hinv.
  rewrite <- (stringify_combine h this A c B Hcl HA HB).
  pose proof (closed_combine h this A c B Hcl) as Hcl1.
  rewrite !stringify_views, (invoke_closure_view _ _ _ _ _ Hcl1 Hinv).
  destruct (closure_view _ _) as [s|] eqn:Hv; [reflexivity|]. exfalso.
  revert Hv. unfold closure_view. rewrite combine_eq. cbv zeta. cbn [fst snd].
  rewrite Get_stringify_head. discriminate.
Qed.

(** [combine(element('div'), '+', element('p')).class('x')] *)
Lemma fragment_on_combined_selector_is_not_rendered_witness :
  let h := store_of (chain (store_of (chain heap0 cssSelectorBuilder [Element "div"]))
                           cssSelectorBuilder [Element "p"]) in
  let r := combine h cssSelectorBuilder 1 "+" 2 in
  let r' := invoke (fst r) (snd r) (Class "x") in
  stringify (store_of r') (object_of r')
  = stringify h 1 +:+ " " +:+ "+" +:+ " " +:+ stringify h 2.
Proof.
  apply (fragment_on_combined_selector_is_not_rendered
           (store_of (chain (store_of (chain heap0 cssSelectorBuilder [Element "div"]))
                            cssSelectorBuilder [Element "p"]))
           cssSelectorBuilder 1 "+" 2 (Class "x")).
  - reflexivity.
  - vm_compute. lia.
  - vm_compute. lia.
  - reflexivity.
Defined.

(** X4: nesting on the left or on the right renders the same string:
    [combine(combine(A, c1, B), c2, C)] and [combine(A, c1, combine(B, c2,
    C))] both render [A c1 B c2 C]. *)
Theorem combine_nesting :
  forall (h : heap) (this A : loc) (c1 : string) (B : loc) (c2 : string) (C : loc),
    closed h = true -> A < length h -> B < length h -> C < length h ->
    let ab := combine h this A c1 B in
    let ab_c := combine (fst ab) this (snd ab) c2 C in
    let bc := combine h this B c2 C in
    let a_bc := combine (fst bc) this A c1 (snd bc) in
    stringify (fst ab_c) (snd ab_c) = stringify (fst a_bc) (snd a_bc)
    /\ stringify (fst a_bc) (snd a_bc)
       = stringify h A +:+ " " +:+ c1 +:+ " " +:+ stringify h B +:+ " " +:+ c2 +:+ " " +:+
         stringify h C.
Proof.
  intros h this A c1 B c2 C Hcl HA HB HC ab ab_c bc a_bc.
  assert (Hshape : forall s1 c s2,
             snd (combine h this s1 c s2) = length h /\
             length (fst (combine h this s1 c s2)) = S (length h) /\
             unchanged h (fst (combine h this s1 c s2)))
    by (intros; apply combine_unchanged, Hcl).
  destruct (Hshape A c1 B) as (Hab & Hlab & Uab).
  destruct (Hshape B c2 C) as (Hbc & Hlbc & Ubc).
  assert (E1 : stringify (fst ab_c) (snd ab_c)
               = (stringify h A +:+ " " +:+ c1 +:+ " " +:+ stringify h B) +:+ " " +:+ c2
                 +:+ " " +:+ stringify h C).
  { subst ab_c. rewrite stringify_combine;
      [| apply closed_combine, Hcl | subst ab; lia | subst ab; lia].
    subst ab. rewrite (stringify_combine h this A c1 B Hcl HA HB).
    rewrite (unchanged_stringify h _ C Uab HC). reflexivity. }
  assert (E2 : stringify (fst a_bc) (snd a_bc)
               = stringify h A +:+ " " +:+ c1 +:+ " " +:+
                 (stringify h B +:+ " " +:+ c2 +:+ " " +:+ stringify h C)).
  { subst a_bc. rewrite stringify_combine;
      [| apply closed_combine, Hcl | subst bc; lia | subst bc; lia].
    subst bc. rewrite (stringify_combine h this B c2 C Hcl HB HC).
    rewrite (unchanged_stringify h _ A Ubc HA). reflexivity. }
  rewrite E1, E2, !append_assoc. split; reflexivity.
Qed.

Lemma combine_nesting_witness :
  let h := store_of (chain (store_of (chain (store_of (chain heap0 cssSelectorBuilder
                                                             [Element "div"]))
                                            cssSelectorBuilder [Element "p"]))
                           cssSelectorBuilder [Element "a"]) in
  let ab := combine h cssSelectorBuilder 1 "+" 2 in
  let ab_c := combine (fst ab) cssSelectorBuilder (snd ab) "~" 3 in
  let bc := combine h cssSelectorBuilder 2 "~" 3 in
  let a_bc := combine (fst bc) cssSelectorBuilder 1 "+" (snd bc) in
  stringify (fst ab_c) (snd ab_c) = stringify (fst a_bc) (snd a_bc)
  /\ stringify (fst a_bc) (snd a_bc)
     = stringify h 1 +:+ " " +:+ "+" +:+ " " +:+ stringify h 2 +:+ " " +:+ "~" +:+ " " +:+
       stringify h 3.
Proof.
  apply (combine_nesting
           (store_of (chain (store_of (chain (store_of (chain heap0 cssSelectorBuilder
                                                              [Element "div"]))
                                             cssSelectorBuilder [Element "p"]))
                            cssSelectorBuilder [Element "a"]))
           cssSelectorBuilder 1 "+" 2 "~" 3).
  - reflexivity.
  - vm_compute. lia.
  - vm_compute. lia.
  - vm_compute. lia.
Defined.

(** ** [attr] twice *)

(** X5: [attr] replaces: where [attr(a)] returns, [attr(b)] on its result
    returns too, and the object it returns cannot be told apart from the
    one [attr(b)] alone returns: same property reads, same rendering. *)
Theorem attr_replaces :
  forall (h : heap) (this : loc) (a b : string) (h1 : heap) (o1 : loc),
    closed h = true ->
    attr h this a = Return (h1, o1) ->
    exists h2 o2 h2' o2',
      attr h1 o1 b = Return (h2, o2) /\
      attr h this b = Return (h2', o2') /\
      (forall k, Get h2 o2 k = Get h2' o2' k) /\
      stringify h2 o2 = stringify h2' o2'.
Proof.
  intros h this a b h1 o1 Hcl Ha.
  pose proof (invoke_closed h this (Attr a) h1 o1 Hcl Ha) as Hcl1.
  destruct (invoke_Return h this (Attr a) h1 o1 Ha) as (Hg & _ & _ & _ & HG1).
  pose proof (invoke_closure_view h this (Attr a) h1 o1 Hcl Ha) as HV1.
  assert (Hgb : guard h this (Attr b) = None) by exact Hg.
  assert (Hgb1 : guard h1 o1 (Attr b) = None).
  { rewrite <- Hgb. unfold guard, some_truthy. simpl. rewrite !HG1. reflexivity. }
  pose proof (invoke_guard h1 o1 (Attr b)) as E1. rewrite Hgb1 in E1.
  pose proof (invoke_guard h this (Attr b)) as E2. rewrite Hgb in E2.
  destruct (derived h1 o1 (target (Attr b)) (written h1 o1 (Attr b))) as [h2 o2].
  destruct (derived h this (target (Attr b)) (written h this (Attr b))) as [h2' o2'].
  exists h2, o2, h2', o2'. split; [exact E1|]. split; [exact E2|].
  destruct (invoke_Return _ _ _ _ _ E1) as (_ & _ & _ & _ & HG2).
  destruct (invoke_Return _ _ _ _ _ E2) as (_ & _ & _ & _ & HG2').
  pose proof (invoke_closure_view _ _ _ _ _ Hcl1 E1) as HV2.
  pose proof (invoke_closure_view _ _ _ _ _ Hcl E2) as HV2'.
  assert (HG : forall k, Get h2 o2 k = Get h2' o2' k).
  { intros k. rewrite HG2, HG2', HG1. simpl. repeat case_decide; reflexivity. }
  split; [exact HG|]. apply same_view_stringify. split; [exact HG | congruence].
Qed.

(** [element('a').attr('x').attr('y')] and [element('a').attr('y')] *)
Lemma attr_replaces_witness :
  let r := chain heap0 cssSelectorBuilder [Element "a"] in
  exists h2 o2 h2' o2',
    attr (store_of (attr (store_of r) (object_of r) "x"))
         (object_of (attr (store_of r) (object_of r) "x")) "y" = Return (h2, o2) /\
    attr (store_of r) (object_of r) "y" = Return (h2', o2') /\
    (forall k, Get h2 o2 k = Get h2' o2' k) /\
    stringify h2 o2 = stringify h2' o2'.
Proof.
  apply (attr_replaces (store_of (chain heap0 cssSelectorBuilder [Element "a"]))
           (object_of (chain heap0 cssSelectorBuilder [Element "a"])) "x" "y");
    reflexivity.
Defined.

End CssFacts.

(* ===================================================================== *)
(** * Facts: date tasks *)
(* ===================================================================== *)

Module DatesFacts.
Import Dates.
Local Open Scope Z_scope.

(** ** The calendar of ECMA-262 *)

Lemma DaysInYear_leap_rule y : (DaysInYear y =? 366) = leap_rule y.
Proof.
  unfold DaysInYear, leap_rule.
  destruct (Z.eqb_spec (y mod 400) 0), (Z.eqb_spec (y mod 100) 0),
    (Z.eqb_spec (y mod 4) 0); try reflexivity;
    exfalso; Z.div_mod_to_equations; lia.
Qed.

Lemma DaysInYear_cases y : DaysInYear y = 365 \/ DaysInYear y = 366.
Proof.
  unfold DaysInYear.
  destruct (y mod 400 =? 0), (y mod 100 =? 0), (y mod 4 =? 0); auto.
Qed.

Lemma DayFromYear_succ y : DayFromYear (y + 1) = DayFromYear y + DaysInYear y.
Proof.
  unfold DayFromYear, DaysInYear.
  destruct (Z.eqb_spec (y mod 400) 0), (Z.eqb_spec (y mod 100) 0),
    (Z.eqb_spec (y mod 4) 0); Z.div_mod_to_equations; lia.
Qed.

Lemma DayFromYear_mono y y' : y <= y' -> DayFromYear y <= DayFromYear y'.
Proof. unfold DayFromYear. intros. Z.div_mod_to_equations. lia. Qed.

(** [YearFromTime] meets its defining property: it is the year whose days
    contain the day of [t]. *)
Lemma YearFromTime_spec t :
  DayFromYear (YearFromTime t) <= Day t < DayFromYear (YearFromTime t + 1).
Proof.
  unfold YearFromTime. set (d := Day t). clearbody d.
  set (y := 1970 + 400 * d / 146097).
  assert (Hy : DayFromYear (y - 1) <= d < DayFromYear (y + 2)).
  { subst y. unfold DayFromYear. Z.div_mod_to_equations. lia. }
  destruct (Z.ltb_spec d (DayFromYear y)).
  - replace (y - 1 + 1) with y by lia. lia.
  - destruct (Z.leb_spec (DayFromYear (y + 1)) d).
    + replace (y + 1 + 1) with (y + 2) by lia. lia.
    + lia.
Qed.

Lemma YearFromTime_unique t y :
  DayFromYear y <= Day t < DayFromYear (y + 1) -> YearFromTime t = y.
Proof.
  intros Hy. pose proof (YearFromTime_spec t) as Hs.
  destruct (Z.lt_trichotomy (YearFromTime t) y) as [Hlt | [Heq | Hgt]].
  - pose proof (DayFromYear_mono (YearFromTime t + 1) y). lia.
  - exact Heq.
  - pose proof (DayFromYear_mono (y + 1) (YearFromTime t)). lia.
Qed.

(** ** 29 February of a year, as [new Date(year, 1, 29)] computes it *)

Lemma feb29_eq yr : feb29 yr = (DayFromYear yr + 59) * msPerDay.
Proof.
  unfold feb29, MakeDate, MakeDay, MakeTime.
  change (1 / 12) with 0. change (1 mod 12) with 1.
  destruct (DaysInYear (yr + 0) =? 366); simpl DaysBeforeMonth;
    replace (yr + 0) with yr by lia; lia.
Qed.

Lemma Day_feb29 yr : Day (feb29 yr) = DayFromYear yr + 59.
Proof. rewrite feb29_eq. unfold Day. apply Z.div_mul. discriminate. Qed.

Lemma YearFromTime_feb29 yr : YearFromTime (feb29 yr) = yr.
Proof.
  apply YearFromTime_unique. rewrite Day_feb29, DayFromYear_succ.
  destruct (DaysInYear_cases yr); lia.
Qed.

(** The day of the month falls on the 29th in a leap year and on 1 March
    otherwise. *)
Lemma DateFromTime_feb29 yr :
  DateFromTime (feb29 yr) = if leap_rule yr then 29 else 1.
Proof.
  unfold DateFromTime, MonthFromTime, InLeapYear, DayWithinYear.
  rewrite YearFromTime_feb29, Day_feb29, DaysInYear_leap_rule.
  replace (DayFromYear yr + 59 - DayFromYear yr) with 59 by lia.
  destruct (leap_rule yr); reflexivity.
Qed.

(** The two-digit rule of the [Date] constructor keeps the leap-year rule
    for every year but 0, which it sends to 1900. *)
Lemma leap_rule_two_digit y :
  1 <= y <= 99 -> leap_rule (1900 + y) = leap_rule y.
Proof.
  intros Hy. unfold leap_rule.
  destruct (Z.eqb_spec ((1900 + y) mod 4) 0), (Z.eqb_spec ((1900 + y) mod 100) 0),
    (Z.eqb_spec ((1900 + y) mod 400) 0), (Z.eqb_spec (y mod 4) 0),
    (Z.eqb_spec (y mod 100) 0), (Z.eqb_spec (y mod 400) 0);
    try reflexivity; exfalso; Z.div_mod_to_equations; lia.
Qed.

Lemma TimeClip_Some t u : TimeClip t = Some u -> u = t /\ Z.abs t <= 8640000000000000.
Proof.
  unfold TimeClip. destruct (Z.ltb_spec 8640000000000000 (Z.abs t)); [discriminate|].
  intros [= <-]. split; [reflexivity | assumption].
Qed.

Lemma TimeClip_None t : TimeClip t = None -> 8640000000000000 < Z.abs t.
Proof.
  unfold TimeClip. destruct (Z.ltb_spec 8640000000000000 (Z.abs t)); [auto | discriminate].
Qed.

(** What [isLeapYear] computes on a valid date, in a host with a fixed
    offset: the leap-year rule of the year the constructor works with. *)
Lemma isLeapYear_fixed_offset z t :
  Z.abs z <= msPerDay ->
  Z.abs t <= 8640000000000000 ->
  let y := YearFromTime (t + z) in
  isLeapYear (fixed_offset z) (Some t)
  = leap_rule (if (0 <=? y) && (y <=? 99) then 1900 + y else y).
Proof.
  intros Hz Ht y.
  assert (Hclip : TimeClip t = Some t).
  { unfold TimeClip. destruct (Z.ltb_spec 8640000000000000 (Z.abs t)); [lia | reflexivity]. }
  unfold isLeapYear, new_Date. rewrite Hclip.
  unfold getFullYear, new_Date_fields, LocalTime, fixed_offset. cbn [option_map].
  fold y. set (yr := if (0 <=? y) && (y <=? 99) then 1900 + y else y).
  fold (feb29 yr). unfold UTC.
  (* the year of a valid date lies between -271821 and 275760 *)
  pose proof (YearFromTime_spec (t + z)) as Hs. fold y in Hs.
  assert (Hd : -100000001 <= Day (t + z) <= 100000001).
  { unfold Day, msPerDay in *. Z.div_mod_to_equations. lia. }
  clearbody y.
  assert (Hlo : -271821 <= y).
  { destruct (Z.le_gt_cases (-271821) y) as [|Hc]; [assumption|].
    pose proof (DayFromYear_mono (y + 1) (-271821) ltac:(lia)) as Hm.
    change (DayFromYear (-271821)) with (-100000109) in Hm. lia. }
  assert (Hhi : y <= 275760).
  { destruct (Z.le_gt_cases y 275760) as [|Hc]; [assumption|].
    pose proof (DayFromYear_mono 275761 y ltac:(lia)) as Hm.
    change (DayFromYear 275761) with 100000110 in Hm. lia. }
  assert (Hyr : yr = y \/ 1900 <= yr <= 1999).
  { subst yr. destruct ((0 <=? y) && (y <=? 99)) eqn:E; [right | left; reflexivity].
    apply andb_prop in E as [E1 E2].
    apply Z.leb_le in E1. apply Z.leb_le in E2. lia. }
  clearbody yr.
  destruct (TimeClip (feb29 yr - z)) as [u|] eqn:Hdata.
  - apply TimeClip_Some in Hdata as [-> _].
    unfold getDate, LocalTime, strict_eq. cbn [option_map].
    replace (feb29 yr - z + z) with (feb29 yr) by lia.
    rewrite DateFromTime_feb29. destruct (leap_rule yr); reflexivity.
  - apply TimeClip_None in Hdata. cbn [getDate option_map strict_eq].
    assert (Hy : yr = -271821).
    { destruct (Z.eq_dec yr (-271821)) as [|Hne]; [assumption | exfalso].
      pose proof (DayFromYear_mono (-271820) yr ltac:(lia)) as H1.
      pose proof (DayFromYear_mono yr 275760 ltac:(lia)) as H2.
      change (DayFromYear (-271820)) with (-99999744) in H1.
      change (DayFromYear 275760) with 99999744 in H2.
      rewrite feb29_eq in Hdata. unfold msPerDay in *. lia. }
    rewrite Hy. reflexivity.
Qed.

(** The documented examples of [isLeapYear]. *)
Example isLeapYear_examples :
  map (fun y => isLeapYear (fixed_offset 0) (Date_UTC y 1 1 0 0))
      [1900; 2000; 2001; 2012; 2015]
  = [false; true; false; true; false].
Proof. reflexivity. Qed.

(** C8 (nearby statement that holds): on every valid date whose year is
    not 0, in a host with a fixed offset of at most a day, [isLeapYear]
    returns true exactly when the year is divisible by 4 and (not divisible
    by 100 or divisible by 400). *)
Theorem isLeapYear_leap_rule_except_year_0 :
  forall (z : Z) (d : date) (y : Z),
    Z.abs z <= msPerDay ->
    getFullYear (fixed_offset z) (new_Date d) = Some y ->
    y <> 0 ->
    isLeapYear (fixed_offset z) d = leap_rule y.
Proof.
  intros z [t|] y Hz Hy Hne; [|discriminate].
  unfold new_Date in Hy. destruct (TimeClip t) as [u|] eqn:Hclip; [|discriminate].
  apply TimeClip_Some in Hclip as [-> Ht].
  unfold getFullYear, LocalTime, fixed_offset in Hy. simpl in Hy. injection Hy as Hy.
  rewrite (isLeapYear_fixed_offset z t Hz Ht). cbv zeta. rewrite Hy.
  destruct ((0 <=? y) && (y <=? 99)) eqn:E; [|reflexivity].
  apply andb_prop in E as [E1 E2]. apply Z.leb_le in E1. apply Z.leb_le in E2.
  apply leap_rule_two_digit. lia.
Qed.

Lemma isLeapYear_leap_rule_except_year_0_witness :
  isLeapYear (fixed_offset 0) (Date_UTC 2012 5 15 12 0) = leap_rule 2012.
Proof.
  apply (isLeapYear_leap_rule_except_year_0 0 (Date_UTC 2012 5 15 12 0) 2012).
  - vm_compute. discriminate.
  - reflexivity.
  - discriminate.
Defined.

(** C8 (the defect): on every date of the year 0, in any host with a fixed
    offset, [isLeapYear] returns false, although 0 is divisible by 4 and
    by 400: [new Date(0, 1, 29)] is 1 March 1900. *)
Theorem isLeapYear_year_0 :
  forall (z : Z) (d : date),
    Z.abs z <= msPerDay ->
    getFullYear (fixed_offset z) (new_Date d) = Some 0 ->
    isLeapYear (fixed_offset z) d = false /\ leap_rule 0 = true.
Proof.
  intros z [t|] Hz Hy; [|discriminate].
  unfold new_Date in Hy. destruct (TimeClip t) as [u|] eqn:Hclip; [|discriminate].
  apply TimeClip_Some in Hclip as [-> Ht].
  unfold getFullYear, LocalTime, fixed_offset in Hy. simpl in Hy. injection Hy as Hy.
  rewrite (isLeapYear_fixed_offset z t Hz Ht). cbv zeta. rewrite Hy.
  split; reflexivity.
Qed.

(** [new Date('0000-06-15T12:00:00Z')], time value -62152833600000. *)
Lemma isLeapYear_year_0_witness :
  isLeapYear (fixed_offset 0) (Some (-62152833600000)) = false /\ leap_rule 0 = true.
Proof.
  apply (isLeapYear_year_0 0 (Some (-62152833600000))).
  - vm_compute. discriminate.
  - reflexivity.
Defined.

(** ** The clock *)

Lemma HourFromTime_range t : 0 <= HourFromTime t < 24.
Proof. unfold HourFromTime. apply Z.mod_pos_bound. lia. Qed.

Lemma MinFromTime_range t : 0 <= MinFromTime t < 60.
Proof. unfold MinFromTime. apply Z.mod_pos_bound. lia. Qed.

Lemma clock_faces_complete h m :
  0 <= h < 24 -> 0 <= m < 60 -> In (h, m) clock_faces.
Proof.
  intros Hh Hm. unfold clock_faces. apply in_prod; apply in_map_iff.
  - exists (Z.to_nat h). split; [lia | apply in_seq; lia].
  - exists (Z.to_nat m). split; [lia | apply in_seq; lia].
Qed.

(** The 1440 readings, each one computed. *)
Lemma clock_faces_within_0_PI :
  forallb (fun hm => within_0_PI (clock_hands (Z2float (fst hm)) (Z2float (snd hm))))
          clock_faces = true.
Proof. vm_compute. reflexivity. Qed.

(** X7: the range the specification gives holds on every date, valid or
    not, in every host: the value returned lies in [0, Math.PI]. *)
Lemma angleBetweenClockHands_within_0_PI (LocalTZA : Z -> bool -> Z) (d : date) :
  within_0_PI (angleBetweenClockHands LocalTZA d) = true.
Proof.
  destruct d as [t|]; [|vm_compute; reflexivity].
  unfold angleBetweenClockHands, getUTCHours, getMinutes. cbn [option_map number].
  pose proof (clock_faces_complete _ _ (HourFromTime_range t)
                (MinFromTime_range (LocalTime LocalTZA t))) as Hin.
  pose proof clock_faces_within_0_PI as Hall.
  rewrite forallb_forall in Hall. exact (Hall _ Hin).
Qed.

(** The documented examples of [angleBetweenClockHands]: 0:00, 3:00,
    18:00 and 21:00 give 0, PI/2, PI and PI/2. *)
Example angleBetweenClockHands_examples :
  map (fun h => angleBetweenClockHands (fixed_offset 0) (Date_UTC 2016 3 5 h 0))
      [0; 3; 18; 21]
  = [0; Math_PI / 2; Math_PI; Math_PI / 2]%float.
Proof. vm_compute. reflexivity. Qed.

(** [clock_hands] is the shorter arc on 724 of the 1440 readings. *)
Lemma clock_faces_agreeing :
  length (List.filter agrees_with_shorter_arc clock_faces) = 724%nat.
Proof. vm_compute. reflexivity. Qed.

(** C9 (the defect): at 7:00 (UTC hour 7, local minute 0) the hands are 25
    minute marks apart on the shorter arc, which is 5 PI / 6 (about
    2.618); [angleBetweenClockHands] returns PI / 6 (about 0.5236): it
    takes 30 marks off the hour hand's position instead of folding the
    distance between the hands. *)
Theorem angleBetweenClockHands_at_7_00 :
  forall (LocalTZA : Z -> bool -> Z) (d : date),
    getUTCHours d = Some 7 ->
    getMinutes LocalTZA d = Some 0 ->
    angleBetweenClockHands LocalTZA d = (Math_PI / 30 * 5)%float
    /\ shorter_arc_angle 7 0 = (Math_PI / 30 * 25)%float
    /\ (angleBetweenClockHands LocalTZA d <? 1)%float = true
    /\ (2 <? shorter_arc_angle 7 0)%float = true.
Proof.
  intros tz d Hh Hm. unfold angleBetweenClockHands. rewrite Hh, Hm.
  repeat split; vm_compute; reflexivity.
Qed.

(** [new Date(Date.UTC(2016, 3, 5, 7, 0))] *)
Lemma angleBetweenClockHands_at_7_00_witness :
  angleBetweenClockHands (fixed_offset 0) (Date_UTC 2016 3 5 7 0)
    = (Math_PI / 30 * 5)%float
  /\ shorter_arc_angle 7 0 = (Math_PI / 30 * 25)%float
  /\ (angleBetweenClockHands (fixed_offset 0) (Date_UTC 2016 3 5 7 0) <? 1)%float = true
  /\ (2 <? shorter_arc_angle 7 0)%float = true.
Proof.
  apply (angleBetweenClockHands_at_7_00 (fixed_offset 0) (Date_UTC 2016 3 5 7 0));
    reflexivity.
Defined.

(** ** [isLeapYear], in one statement *)

(** X6: what [isLeapYear] returns on every date, in a host with a fixed
    offset of at most a day: on a valid date of the year [y], whether [y]
    is divisible by 4 and (not divisible by 100 or divisible by 400) and
    is not 0; on an invalid date, false. *)
Theorem isLeapYear_exactly :
  forall (z : Z) (d : date),
    Z.abs z <= msPerDay ->
    isLeapYear (fixed_offset z) d =
    match getFullYear (fixed_offset z) (new_Date d) with
    | Some y => leap_rule y && negb (y =? 0)
    | None => false
    end.
Proof.
  intros z [t|] Hz; [|reflexivity].
  unfold new_Date. destruct (TimeClip t) as [u|] eqn:Hclip.
  - apply TimeClip_Some in Hclip as [-> Ht].
    rewrite (isLeapYear_fixed_offset z t Hz Ht). cbv zeta.
    unfold getFullYear, LocalTime, fixed_offset. cbn [option_map].
    generalize (YearFromTime (t + z)). intros y.
    destruct (Z.eqb_spec y 0) as [->|Hne]; [reflexivity|].
    rewrite andb_true_r.
    destruct ((0 <=? y) && (y <=? 99)) eqn:E; [|reflexivity].
    apply andb_prop in E as [E1 E2]. apply Z.leb_le in E1. apply Z.leb_le in E2.
    apply leap_rule_two_digit. lia.
  - unfold isLeapYear, new_Date. rewrite Hclip. reflexivity.
Qed.

(** A date of 2012, a date of the year 0 and an invalid date. *)
Lemma isLeapYear_exactly_witness :
  map (isLeapYear (fixed_offset 0)) [Date_UTC 2012 5 15 12 0; Some (-62152833600000); None]
  = [true; false; false].
Proof.
  cbn [map].
  rewrite !(isLeapYear_exactly 0) by (vm_compute; discriminate).
  reflexivity.
Defined.

(** ** Checking a property on a range of whole numbers *)

Lemma Z_range_complete lo n z :
  lo <= z < lo + Z.of_nat n -> In z (Z_range lo n).
Proof.
  intros Hz. unfold Z_range. apply in_map_iff. exists (Z.to_nat (z - lo)).
  split; [lia | apply in_seq; lia].
Qed.

Lemma forallb_Z_range (P : Z -> bool) lo n :
  forallb P (Z_range lo n) = true ->
  forall z, lo <= z < lo + Z.of_nat n -> P z = true.
Proof.
  intros H z Hz. rewrite forallb_forall in H. apply H, Z_range_complete, Hz.
Qed.

(** ** [timeSpanToString] *)

Lemma SecFromTime_range t : 0 <= SecFromTime t < 60.
Proof. unfold SecFromTime. apply Z.mod_pos_bound. lia. Qed.

Lemma msFromTime_range t : 0 <= msFromTime t < 1000.
Proof. unfold msFromTime, msPerSecond. apply Z.mod_pos_bound. lia. Qed.

(** The time within the day is its four fields. *)
Lemma TimeWithinDay_fields t :
  TimeWithinDay t
  = HourFromTime t * msPerHour + MinFromTime t * msPerMinute
    + SecFromTime t * msPerSecond + msFromTime t.
Proof.
  unfold TimeWithinDay, HourFromTime, MinFromTime, SecFromTime, msFromTime,
    msPerDay, msPerHour, msPerMinute, msPerSecond.
  Z.div_mod_to_equations. lia.
Qed.

Lemma HourFromTime_days t k : HourFromTime (t + k * msPerDay) = HourFromTime t.
Proof. unfold HourFromTime, msPerDay, msPerHour. Z.div_mod_to_equations. lia. Qed.

Lemma MinFromTime_days t k : MinFromTime (t + k * msPerDay) = MinFromTime t.
Proof. unfold MinFromTime, msPerDay, msPerMinute. Z.div_mod_to_equations. lia. Qed.

Lemma SecFromTime_days t k : SecFromTime (t + k * msPerDay) = SecFromTime t.
Proof. unfold SecFromTime, msPerDay, msPerSecond. Z.div_mod_to_equations. lia. Qed.

Lemma msFromTime_days t k : msFromTime (t + k * msPerDay) = msFromTime t.
Proof. unfold msFromTime, msPerDay, msPerSecond. Z.div_mod_to_equations. lia. Qed.



Lemma TimeClip_valid t : Z.abs t <= 8640000000000000 -> TimeClip t = Some t.
Proof.
  intros H. unfold TimeClip.
  destruct (Z.ltb_spec 8640000000000000 (Z.abs t)); [lia | reflexivity].
Qed.

(** On two valid dates the result is the four field differences, each in
    its places, between the separators. *)
Lemma timeSpanToString_parts tz s e :
  Z.abs s <= 8640000000000000 -> Z.abs e <= 8640000000000000 ->
  timeSpanToString tz (Some s) (Some e) =
  let '(dh, dm, ds, dms) := field_differences tz s e in
  (two_places (Some dh) +:+ ":" +:+ two_places (Some dm) +:+ ":" +:+
   two_places (Some ds) +:+ "." +:+ three_places (Some dms))%string.
Proof.
  intros Hs He. unfold timeSpanToString, new_Date.
  rewrite (TimeClip_valid s Hs), (TimeClip_valid e He). reflexivity.
Qed.

Lemma two_places_digits d : 0 <= d < 60 -> two_places (Some d) = digits2 d.
Proof.
  intros Hd. apply String.eqb_eq.
  apply (forallb_Z_range (fun d => String.eqb (two_places (Some d)) (digits2 d)) 0 60);
    [vm_compute; reflexivity | lia].
Qed.

Lemma three_places_digits d : 0 <= d < 1000 -> three_places (Some d) = digits3 d.
Proof.
  intros Hd. apply String.eqb_eq.
  apply (forallb_Z_range (fun d => String.eqb (three_places (Some d)) (digits3 d)) 0 1000);
    [vm_compute; reflexivity | lia].
Qed.

Lemma occurs_append a s1 s2 : occurs a (s1 +:+ s2) = occurs a s1 || occurs a s2.
Proof.
  induction s1 as [|b s1 IH]; [reflexivity|].
  change (occurs a (String b (s1 +:+ s2)) = occurs a (String b s1) || occurs a s2).
  simpl. rewrite IH. apply orb_assoc.
Qed.

Lemma occurs_two_places d :
  -60 < d < 60 -> occurs hyphen_minus (two_places (Some d)) = (d <? 0).
Proof.
  intros Hd. apply Bool.eqb_prop.
  apply (forallb_Z_range
           (fun d => Bool.eqb (occurs hyphen_minus (two_places (Some d))) (d <? 0))
           (-59) 119); [vm_compute; reflexivity | lia].
Qed.

Lemma occurs_three_places d :
  -1000 < d < 1000 -> occurs hyphen_minus (three_places (Some d)) = (d <? 0).
Proof.
  intros Hd. apply Bool.eqb_prop.
  apply (forallb_Z_range
           (fun d => Bool.eqb (occurs hyphen_minus (three_places (Some d))) (d <? 0))
           (-999) 1999); [vm_compute; reflexivity | lia].
Qed.

Lemma digits_value_digits2 n : 0 <= n < 100 ->
  digits_value [digit (n / 10); digit (n mod 10)] = Some n.
Proof.
  intros Hn.
  pose proof (forallb_Z_range
           (fun n => match digits_value [digit (n / 10); digit (n mod 10)] with
                     | Some v => v =? n
                     | None => false
                     end) 0 100 ltac:(vm_compute; reflexivity) n ltac:(lia)) as H.
  cbv beta in H. revert H.
  destruct (digits_value _) as [v|]; [|discriminate].
  intros H. apply Z.eqb_eq in H. congruence.
Qed.

Lemma digits_value_digits3 n : 0 <= n < 1000 ->
  digits_value [digit (n / 100); digit (n mod 100 / 10); digit (n mod 100 mod 10)] = Some n.
Proof.
  intros Hn.
  pose proof (forallb_Z_range
           (fun n => match digits_value [digit (n / 100); digit (n mod 100 / 10);
                                         digit (n mod 100 mod 10)] with
                     | Some v => v =? n
                     | None => false
                     end) 0 1000 ltac:(vm_compute; reflexivity) n ltac:(lia)) as H.
  cbv beta in H. revert H.
  destruct (digits_value _) as [v|]; [|discriminate].
  intros H. apply Z.eqb_eq in H. congruence.
Qed.

(** Reading back the four fields printed in their places. *)
Lemma timespan_ms_digits h m s f :
  0 <= h < 100 -> 0 <= m < 100 -> 0 <= s < 100 -> 0 <= f < 1000 ->
  timespan_ms (digits2 h +:+ ":" +:+ digits2 m +:+ ":" +:+ digits2 s +:+ "." +:+ digits3 f)
  = Some (h * msPerHour + m * msPerMinute + s * msPerSecond + f).
Proof.
  intros Hh Hm Hs Hf. unfold timespan_ms.
  change (String.list_ascii_of_string
            (digits2 h +:+ ":" +:+ digits2 m +:+ ":" +:+ digits2 s +:+ "." +:+ digits3 f))
    with [digit (h / 10); digit (h mod 10); colon; digit (m / 10); digit (m mod 10); colon;
          digit (s / 10); digit (s mod 10); full_stop;
          digit (f / 100); digit (f mod 100 / 10); digit (f mod 100 mod 10)].
  change (Ascii.eqb colon colon && Ascii.eqb colon colon && Ascii.eqb full_stop full_stop)
    with true. cbv iota.
  rewrite !digits_value_digits2, digits_value_digits3 by assumption. reflexivity.
Qed.




(** X11: whole days do not show: moving the end by any number of days
    leaves the result as it is, so that a span of 25 hours prints as one
    hour. *)
Theorem timeSpanToString_ignores_days :
  forall (z s e k : Z),
    Z.abs s <= 8640000000000000 -> Z.abs e <= 8640000000000000 ->
    Z.abs (e + k * msPerDay) <= 8640000000000000 ->
    timeSpanToString (fixed_offset z) (Some s) (Some (e + k * msPerDay))
    = timeSpanToString (fixed_offset z) (Some s) (Some e).
Proof.
  intros z s e k Hs He Hek.
  rewrite !timeSpanToString_parts by assumption. unfold field_differences.
  unfold LocalTime, fixed_offset.
  replace (e + k * msPerDay + z) with (e + z + k * msPerDay) by lia.
  rewrite HourFromTime_days, MinFromTime_days, SecFromTime_days, msFromTime_days.
  reflexivity.
Qed.

(** 10:00 to 11:00 on the next day *)
Lemma timeSpanToString_ignores_days_witness :
  timeSpanToString (fixed_offset 0) (Some 949399200000) (Some (949402800000 + 1 * msPerDay))
  = timeSpanToString (fixed_offset 0) (Some 949399200000) (Some 949402800000).
Proof.
  apply (timeSpanToString_ignores_days 0 949399200000 949402800000 1);
    vm_compute; congruence.
Defined.

(** X12: fields are subtracted one by one, with no borrow: on two valid
    dates the result holds a ['-'] exactly when some field of the end is
    below the same field of the start (as for 10:30 to 11:00, which prints
    ["01:-30:00.000"]). *)
Theorem timeSpanToString_hyphen_iff_field_below :
  forall (LocalTZA : Z -> bool -> Z) (s e : Z),
    Z.abs s <= 8640000000000000 -> Z.abs e <= 8640000000000000 ->
    occurs hyphen_minus (timeSpanToString LocalTZA (Some s) (Some e))
    = let '(dh, dm, ds, dms) := field_differences LocalTZA s e in
      (dh <? 0) || (dm <? 0) || (ds <? 0) || (dms <? 0).
Proof.
  intros tz s e Hs He.
  rewrite (timeSpanToString_parts _ s e Hs He). unfold field_differences.
  pose proof (HourFromTime_range (LocalTime tz s)).
  pose proof (HourFromTime_range (LocalTime tz e)).
  pose proof (MinFromTime_range (LocalTime tz s)).
  pose proof (MinFromTime_range (LocalTime tz e)).
  pose proof (SecFromTime_range (LocalTime tz s)).
  pose proof (SecFromTime_range (LocalTime tz e)).
  pose proof (msFromTime_range (LocalTime tz s)).
  pose proof (msFromTime_range (LocalTime tz e)).
  rewrite !occurs_append, !occurs_two_places, occurs_three_places by lia.
  change (occurs hyphen_minus ":") with false.
  change (occurs hyphen_minus ".") with false.
  rewrite !orb_false_l, !orb_assoc. reflexivity.
Qed.

(** [Date(2000,1,1,10,30,0)] to [Date(2000,1,1,11,0,0)] *)
Lemma timeSpanToString_hyphen_iff_field_below_witness :
  occurs hyphen_minus
    (timeSpanToString (fixed_offset 0) (Some 949401000000) (Some 949402800000))
  = let '(dh, dm, ds, dms) := field_differences (fixed_offset 0) 949401000000 949402800000 in
    (dh <? 0) || (dm <? 0) || (ds <? 0) || (dms <? 0).
Proof.
  apply (timeSpanToString_hyphen_iff_field_below (fixed_offset 0)
           949401000000 949402800000); vm_compute; congruence.
Defined.

(** ** The clock, once more *)

Lemma clock_faces_agree_iff_same_half :
  forallb (fun hm => Bool.eqb (agrees_with_shorter_arc hm)
                              (same_half hm || ((fst hm mod 12 =? 9) && (snd hm =? 0))))
          clock_faces = true.
Proof. vm_compute. reflexivity. Qed.

(** X8: where [angleBetweenClockHands] is right: on a valid date it is the
    shorter arc between the hands (up to 2^-20 radians) exactly when both
    hands are on the same half of the dial, or at 9:00 and 21:00. *)
Theorem angleBetweenClockHands_right_iff_same_half :
  forall (LocalTZA : Z -> bool -> Z) (d : date) (h m : Z),
    getUTCHours d = Some h -> Dates.getMinutes LocalTZA d = Some m ->
    (abs (angleBetweenClockHands LocalTZA d - shorter_arc_angle h m) <? 0x1p-20)%float
    = same_half (h, m) || ((h mod 12 =? 9) && (m =? 0)).
Proof.
  intros tz [t|] h m Hh Hm; [|discriminate].
  unfold angleBetweenClockHands. rewrite Hh, Hm. cbn [number].
  injection Hh as <-. injection Hm as <-.
  pose proof (clock_faces_complete _ _ (HourFromTime_range t)
                (MinFromTime_range (LocalTime tz t))) as Hin.
  pose proof clock_faces_agree_iff_same_half as Hall.
  rewrite forallb_forall in Hall. apply Bool.eqb_prop. exact (Hall _ Hin).
Qed.

Lemma angleBetweenClockHands_right_iff_same_half_witness :
  (abs (angleBetweenClockHands (fixed_offset 0) (Date_UTC 2016 3 5 13 20)
        - shorter_arc_angle 13 20) <? 0x1p-20)%float
  = same_half (13, 20) || ((13 mod 12 =? 9) && (20 =? 0)).
Proof.
  apply (angleBetweenClockHands_right_iff_same_half (fixed_offset 0)
           (Date_UTC 2016 3 5 13 20) 13 20); reflexivity.
Defined.

Lemma HourFromTime_half_day t : HourFromTime (t + 12 * msPerHour) = (HourFromTime t + 12) mod 24.
Proof. unfold HourFromTime, msPerHour. Z.div_mod_to_equations. lia. Qed.

Lemma MinFromTime_half_day t : MinFromTime (t + 12 * msPerHour) = MinFromTime t.
Proof. unfold MinFromTime, msPerHour, msPerMinute. Z.div_mod_to_equations. lia. Qed.

Lemma clock_faces_half_day :
  forallb (fun hm => PrimFloat.eqb
                       (clock_hands (Z2float ((fst hm + 12) mod 24)) (Z2float (snd hm)))
                       (clock_hands (Z2float (fst hm)) (Z2float (snd hm))))
          clock_faces = true.
Proof. vm_compute. reflexivity. Qed.

(** X9: the hours 12 to 23 are read as 0 to 11: for a valid date whose
    time value is [t], when the date twelve hours later is valid too (both
    time values within 8.64e15 of the epoch), the function returns the
    same number for the two (in the sense of [===]). *)
Theorem angleBetweenClockHands_half_day :
  forall (z t : Z),
    Z.abs t <= 8640000000000000 ->
    Z.abs (t + 12 * msPerHour) <= 8640000000000000 ->
    PrimFloat.eqb
      (angleBetweenClockHands (fixed_offset z) (new_Date (Some (t + 12 * msPerHour))))
      (angleBetweenClockHands (fixed_offset z) (new_Date (Some t))) = true.
Proof.
  intros z t Ht Ht12. unfold new_Date.
  rewrite (TimeClip_valid t Ht), (TimeClip_valid _ Ht12).
  unfold angleBetweenClockHands, getUTCHours, Dates.getMinutes.
  cbn [option_map number]. unfold LocalTime, fixed_offset.
  replace (t + 12 * msPerHour + z) with (t + z + 12 * msPerHour) by lia.
  rewrite HourFromTime_half_day, MinFromTime_half_day.
  pose proof (clock_faces_complete _ _ (HourFromTime_range t)
                (MinFromTime_range (t + z))) as Hin.
  pose proof clock_faces_half_day as Hall.
  rewrite forallb_forall in Hall. exact (Hall _ Hin).
Qed.

(** [Date.UTC(2016, 3, 5, 7, 20)] and the same day at 19:20 *)
Lemma angleBetweenClockHands_half_day_witness :
  PrimFloat.eqb
    (angleBetweenClockHands (fixed_offset 0)
                            (new_Date (Some (1459840800000 + 12 * msPerHour))))
    (angleBetweenClockHands (fixed_offset 0) (new_Date (Some 1459840800000))) = true.
Proof.
  apply (angleBetweenClockHands_half_day 0 1459840800000); vm_compute; discriminate.
Defined.

End DatesFacts.
